(** * Ontime custom-field text-to-speech monitor: a shallow embedding of app.js

    The script keeps its state in module-level variables and reacts to
    callbacks (socket messages, DOM events, timers, utterance events).  The
    embedding passes that state explicitly.  Objects and [Map]s that the
    script uses as dictionaries are finite maps of their own entries; where
    the script reads or writes a plain object under a computed key, what the
    object inherits from [Object.prototype] is taken into account.  Strings
    are sequences of UTF-16 code units, as in JavaScript.  What a handler writes to the page
    is recorded as an action, without the markup; console output is kept for
    the monitoring engine, where a logged skip differs from a silent one. *)

From Stdlib Require Import ZArith NArith List String Ascii Lia Bool.
From stdpp Require Import gmap list fin_maps.
Import ListNotations.

Local Open Scope Z_scope.

(** ** Strings *)

(** A JavaScript string is a sequence of 16-bit code units; a code unit is
    kept as its number. *)
Abbreviation jsstring := (list N).

(** The code units of a literal written in ASCII. *)
Definition js (s : string) : jsstring :=
  List.map N_of_ascii (list_ascii_of_string s).

(** [WhiteSpace] and [LineTerminator] of ECMAScript, the code units that
    [String.prototype.trim] and [parseInt] strip. *)
Definition is_ws (c : N) : bool :=
  ((c =? 9) || (c =? 10) || (c =? 11) || (c =? 12) || (c =? 13) || (c =? 32)
   || (c =? 160) || (c =? 5760) || ((8192 <=? c) && (c <=? 8202))
   || (c =? 8232) || (c =? 8233) || (c =? 8239) || (c =? 8287)
   || (c =? 12288) || (c =? 65279))%N.

Fixpoint trimStart (s : jsstring) : jsstring :=
  match s with
  | c :: tl => if is_ws c then trimStart tl else s
  | [] => []
  end.

Definition trimEnd (s : jsstring) : jsstring := rev (trimStart (rev s)).

(** [timeStr.trim()] *)
Definition trim (s : jsstring) : jsstring := trimEnd (trimStart s).

(** [\d] without the unicode-sets flag: the ten ASCII digits. *)
Definition is_digit (c : N) : bool := ((48 <=? c) && (c <=? 57))%N.

Definition colon : N := 58.

(** ** Numbers *)

(** The numbers this script computes with are integers or [NaN].  A double
    holds every integer below 2^53 exactly; negative zero is not told apart
    from zero (both are falsy and equal under [===]). *)
Inductive jsnum :=
| NaN
| Num (z : Z).

Definition num_add (a b : jsnum) : jsnum :=
  match a, b with
  | Num x, Num y => Num (x + y)
  | _, _ => NaN
  end.

Definition num_mul (a b : jsnum) : jsnum :=
  match a, b with
  | Num x, Num y => Num (x * y)
  | _, _ => NaN
  end.

(** [a > b]: false as soon as one side is [NaN]. *)
Definition num_gt (a b : jsnum) : bool :=
  match a, b with
  | Num x, Num y => y <? x
  | _, _ => false
  end.

(** The leading run of decimal digits of [s], read left to right into the
    accumulator, with the number of digits read. *)
Fixpoint read_digits (s : jsstring) (acc : Z) (cnt : nat) : Z * nat :=
  match s with
  | c :: tl =>
      if is_digit c then read_digits tl (10 * acc + (Z.of_N c - 48)) (S cnt)
      else (acc, cnt)
  | [] => (acc, cnt)
  end.

(** [parseInt(s, 10)]: leading white space is skipped, one sign is taken,
    then the longest prefix of decimal digits is read; no digit gives
    [NaN]. *)
Definition parseInt10 (s : jsstring) : jsnum :=
  let s1 := trimStart s in
  let '(sign, s2) :=
    match s1 with
    | c :: tl =>
        if (c =? 45)%N then (-1, tl)
        else if (c =? 43)%N then (1, tl)
        else (1, s1)
    | [] => (1, s1)
    end in
  match read_digits s2 0 0 with
  | (_, O) => NaN
  | (v, S _) => Num (sign * v)
  end.

(** ** A backtracking matcher for the regular expressions of the script *)

Inductive regex :=
| RDigit                            (* \d *)
| RChar (c : N)                     (* a literal code unit *)
| RSeq (r1 r2 : regex)
| RAlt (r1 r2 : regex)              (* r1|r2, r1 tried first *)
| RRep (lo hi : nat) (r : regex)    (* r{lo,hi}, greedy *)
| RGroup (i : nat) (r : regex)      (* the i-th capturing group *)
| RBol                              (* ^ without the m flag *)
| REol.                             (* $ without the m flag *)

(** The matcher's state: how many code units are consumed, what is left of
    the input, and the captures made so far. *)
Record mstate := MState {
  pos : nat;
  rest : jsstring;
  caps : gmap nat jsstring
}.

Definition advance (st : mstate) (tl : jsstring) : mstate :=
  {| pos := S (pos st); rest := tl; caps := caps st |}.

Definition set_cap (i : nat) (w : jsstring) (st : mstate) : mstate :=
  {| pos := pos st; rest := rest st; caps := <[i := w]> (caps st) |}.

(** Greedy bounded repetition: up to [n] more rounds of [step], [cnt] done;
    a round that leads nowhere is given up and the continuation is tried
    with what has been matched, provided [lo] rounds are done. *)
Fixpoint rep (step : mstate -> (mstate -> option mstate) -> option mstate)
    (lo n cnt : nat) (st : mstate) (k : mstate -> option mstate)
    : option mstate :=
  match n with
  | O => if (lo <=? cnt)%nat then k st else None
  | S n' =>
      match step st (fun st1 => rep step lo n' (S cnt) st1 k) with
      | Some res => Some res
      | None => if (lo <=? cnt)%nat then k st else None
      end
  end.

(** Matching in continuation-passing style: [k] is what remains to be
    matched; [None] makes the caller backtrack.  The captures travel with
    the state, so giving up an alternative also gives up its captures. *)
Fixpoint rmatch (r : regex) (st : mstate) (k : mstate -> option mstate)
    : option mstate :=
  match r with
  | RDigit =>
      match rest st with
      | c :: tl => if is_digit c then k (advance st tl) else None
      | [] => None
      end
  | RChar a =>
      match rest st with
      | c :: tl => if (c =? a)%N then k (advance st tl) else None
      | [] => None
      end
  | RSeq r1 r2 => rmatch r1 st (fun st1 => rmatch r2 st1 k)
  | RAlt r1 r2 =>
      match rmatch r1 st k with
      | Some res => Some res
      | None => rmatch r2 st k
      end
  | RRep lo hi r1 => rep (rmatch r1) lo hi 0 st k
  | RGroup i r1 =>
      rmatch r1 st
        (fun st1 => k (set_cap i (firstn (pos st1 - pos st) (rest st)) st1))
  | RBol => if (pos st =? 0)%nat then k st else None
  | REol =>
      match rest st with
      | [] => k st
      | _ :: _ => None
      end
  end.

(** [str.match(re)] for a pattern without the g flag: the first start index,
    from 0 up to the length of the input, at which the pattern matches. *)
Fixpoint exec_from (r : regex) (p : nat) (s : jsstring) : option mstate :=
  match rmatch r {| pos := p; rest := s; caps := ∅ |} Some with
  | Some res => Some res
  | None =>
      match s with
      | _ :: tl => exec_from r (S p) tl
      | [] => None
      end
  end.

Definition regex_match (r : regex) (s : jsstring) : option (gmap nat jsstring) :=
  caps <$> exec_from r 0 s.

(** [/^(\d{1,2}):(\d{2}):(\d{2})$|^(\d{1,2}):(\d{2})$/] *)
Definition timePattern : regex :=
  RAlt
    (RSeq RBol
       (RSeq (RGroup 1 (RRep 1 2 RDigit))
          (RSeq (RChar colon)
             (RSeq (RGroup 2 (RRep 2 2 RDigit))
                (RSeq (RChar colon)
                   (RSeq (RGroup 3 (RRep 2 2 RDigit)) REol))))))
    (RSeq RBol
       (RSeq (RGroup 4 (RRep 1 2 RDigit))
          (RSeq (RChar colon)
             (RSeq (RGroup 5 (RRep 2 2 RDigit)) REol)))).

(** ** Values *)

(** What a custom field of an event can hold once the payload is parsed
    from JSON.  The script looks into strings only; of an object or array it
    uses the identity alone (for [===]), which [JObj] carries. *)
Inductive JsVal :=
| JNull
| JBool (b : bool)
| JNum (z : Z)
| JStr (s : jsstring)
| JObj (ref : nat).

Global Instance JsVal_eq_dec : EqDecision JsVal.
Proof. solve_decision. Defined.

(** [parseInt(match[i], 10)]; a group that did not take part is
    [undefined], which reads as the text "undefined" and gives [NaN]. *)
Definition parseGroup (m : gmap nat jsstring) (i : nat) : jsnum :=
  match m !! i with
  | Some w => parseInt10 w
  | None => NaN
  end.

(** [parseTimeToSeconds(timeStr)]; [None] is [null]. *)
Definition parseTimeToSeconds (timeStr : JsVal) : option jsnum :=
  match timeStr with
  | JStr s =>
      match s with
      | [] => None
      | _ :: _ =>
          let trimmed := trim s in
          match regex_match timePattern trimmed with
          | None => None
          | Some m =>
              if decide (is_Some (m !! 1%nat)) then
                let hours := parseGroup m 1 in
                let minutes := parseGroup m 2 in
                let seconds := parseGroup m 3 in
                Some (num_add (num_add (num_mul hours (Num 3600))
                                       (num_mul minutes (Num 60))) seconds)
              else if decide (is_Some (m !! 4%nat)) then
                let minutes := parseGroup m 4 in
                let seconds := parseGroup m 5 in
                Some (num_add (num_mul minutes (Num 60)) seconds)
              else None
          end
      end
  | _ => None
  end.

(** ** Data model *)

Record CustomFieldDefinition := {
  label : jsstring;
  ftype : jsstring;
  colour : jsstring
}.

(** One entry of [monitoredFields].  The threshold is a number of seconds;
    no path of the script stores [NaN] there. *)
Record MonitorConfig := {
  enabled : bool;
  threshold : Z;
  voice : jsstring;
  language : jsstring
}.

Global Instance MonitorConfig_eq_dec : EqDecision MonitorConfig.
Proof. solve_decision. Defined.

(** The literal the change handlers and the add button start from. *)
Definition defaultConfig (en : bool) : MonitorConfig :=
  {| enabled := en; threshold := 10; voice := []; language := js "en-US" |}.

(** An event of the runtime data: its [id] (absent, or a string) and its
    [custom] object, whose entries are kept in the order [Object.entries]
    lists them. *)
Record OntimeEvent := {
  id : option jsstring;
  custom : option (list (jsstring * JsVal))
}.

(** A top-level value of the runtime data: an event object, or anything
    else (of which the script uses nothing). *)
Inductive RuntimeVal :=
| RVEvent (e : OntimeEvent)
| RVOther (v : JsVal).

(** ** The speech dispatcher *)

Record Voice := {
  voiceURI : jsstring;
  vname : jsstring;
  vlang : jsstring
}.

(** A [SpeechSynthesisUtterance] as [speakValue] builds it (the reading
    rate, a float taken from the slider, is left out). *)
Record Utterance := {
  text : jsstring;
  lang : jsstring;
  uvoice : option Voice
}.

(** The arguments of one call of [speakValue]: the configuration is the
    object as it is at the call. *)
Record Request := {
  rq_field : jsstring;
  rq_seconds : jsnum;
  rq_config : MonitorConfig
}.

(** The dispatcher's part of the state: whether [speechSynthesis] is there,
    its voices, the flag [isSpeaking], the callbacks waiting on
    [setTimeout(_, 100)] (oldest first: equal delays fire in order), the
    utterances given to [speak] that the engine still holds, and the
    utterances [cancel] has taken from it, whose [error] event the engine
    has yet to deliver. *)
Record Speech := {
  available : bool;
  voices : list Voice;
  isSpeaking : bool;
  timers : list Request;
  queue : list Utterance;
  cancelled : list Utterance
}.

Definition set_isSpeaking (b : bool) (s : Speech) : Speech :=
  {| available := available s; voices := voices s; isSpeaking := b;
     timers := timers s; queue := queue s; cancelled := cancelled s |}.

Definition set_timers (t : list Request) (s : Speech) : Speech :=
  {| available := available s; voices := voices s; isSpeaking := isSpeaking s;
     timers := t; queue := queue s; cancelled := cancelled s |}.

Definition set_queue (q : list Utterance) (s : Speech) : Speech :=
  {| available := available s; voices := voices s; isSpeaking := isSpeaking s;
     timers := timers s; queue := q; cancelled := cancelled s |}.

Definition set_cancelled (c : list Utterance) (s : Speech) : Speech :=
  {| available := available s; voices := voices s; isSpeaking := isSpeaking s;
     timers := timers s; queue := queue s; cancelled := c |}.

(** [speechSynthesis.cancel()]: the engine drops every utterance it holds;
    each of them will still report an [error]. *)
Definition cancel (s : Speech) : Speech :=
  set_cancelled (cancelled s ++ queue s) (set_queue [] s).

(** Decimal digits of [n], most significant first. *)
Fixpoint dec_digits (fuel : nat) (n : N) (acc : jsstring) : jsstring :=
  match fuel with
  | O => acc
  | S f =>
      let acc' := (48 + n mod 10)%N :: acc in
      if (n / 10 =? 0)%N then acc' else dec_digits f (n / 10)%N acc'
  end.

Definition N_to_string (n : N) : jsstring :=
  dec_digits (S (N.to_nat (N.log2 n))) n [].

(** The template literal [`${seconds}`]. *)
Definition num_to_string (a : jsnum) : jsstring :=
  match a with
  | NaN => js "NaN"
  | Num z =>
      if z <? 0 then 45%N :: N_to_string (Z.abs_N z)
      else N_to_string (Z.to_N z)
  end.

(** [a || b] on strings: the empty string is falsy. *)
Definition str_or (a b : jsstring) : jsstring :=
  match a with
  | [] => b
  | _ :: _ => a
  end.

(** [voices.find(v => v.voiceURI === config.voice || v.name === config.voice)] *)
Definition findVoice (vs : list Voice) (name : jsstring) : option Voice :=
  List.find (fun v => bool_decide (voiceURI v = name) || bool_decide (vname v = name)) vs.

Definition mkUtterance (vs : list Voice) (rq : Request) : Utterance :=
  {| text := num_to_string (rq_seconds rq);
     lang := str_or (language (rq_config rq)) (js "en-US");
     uvoice := match voice (rq_config rq) with
               | [] => None
               | _ :: _ => findVoice vs (voice (rq_config rq))
               end |}.

(** [speakValue(fieldKey, seconds, config)] up to and including
    [setTimeout]: nothing happens without an engine or while the flag is
    set; otherwise what the engine holds is cancelled and the callback is
    scheduled. *)
Definition speakValue (rq : Request) (s : Speech) : Speech :=
  if negb (available s) then s
  else if isSpeaking s then s
  else
    let s1 := match queue s with
              | [] => s
              | _ :: _ => cancel s
              end in
    set_timers (timers s1 ++ [rq]) s1.

(** The request as the timer callback reads it: the field and the seconds
    are those of the call, the language and the voice are read off the
    config object when the callback runs, [now] being what the object then
    holds. *)
Definition asRead (now : MonitorConfig) (rq : Request) : Request :=
  {| rq_field := rq_field rq; rq_seconds := rq_seconds rq; rq_config := now |}.

(** The callback given to [setTimeout], run for the oldest waiting request.
    [throws] tells whether [speechSynthesis.speak] raises; [now] is what the
    config object of the request holds at that time (the change handlers
    write into the object, so it need not be what it held at the call). *)
Definition timerCallback (throws : bool) (now : MonitorConfig) (s : Speech) : Speech :=
  match timers s with
  | [] => s
  | rq :: waiting =>
      let s1 := set_timers waiting s in
      if isSpeaking s1 then s1
      else
        let s2 := set_isSpeaking true s1 in
        let utterance := mkUtterance (voices s2) (asRead now rq) in
        if throws then set_isSpeaking false s2
        else set_queue (queue s2 ++ [utterance]) s2
  end.

Fixpoint remove_nth {A} (i : nat) (l : list A) : list A :=
  match l, i with
  | [], _ => []
  | _ :: tl, O => tl
  | x :: tl, S j => x :: remove_nth j tl
  end.

(** [utterance.onend] of the [i]-th utterance the engine holds: it leaves
    the engine and the flag is cleared. *)
Definition onend (i : nat) (s : Speech) : Speech :=
  set_isSpeaking false (set_queue (remove_nth i (queue s)) s).

(** [utterance.onerror] of the [i]-th utterance the engine holds: as
    [onend]. *)
Definition onerror (i : nat) (s : Speech) : Speech :=
  set_isSpeaking false (set_queue (remove_nth i (queue s)) s).

(** The report of the [i]-th cancelled utterance arrives (its [error]
    event; an engine that reports [end] instead runs [onend], which does the
    same): the handler clears the flag whatever the engine is doing by
    then. *)
Definition onCancelledError (i : nat) (s : Speech) : Speech :=
  set_isSpeaking false (set_cancelled (remove_nth i (cancelled s)) s).

(** The [change] handler of [#tts-enabled] when the box gets unchecked:
    [speechSynthesis?.cancel(); isSpeaking = false]. *)
Definition onTtsDisabled (s : Speech) : Speech :=
  set_isSpeaking false (if available s then cancel s else s).

(** What can happen to the dispatcher. *)
Inductive SpeechEvent :=
| Trigger (rq : Request)                          (* a call of speakValue *)
| TimerFires (throws : bool) (now : MonitorConfig) (* the oldest timer callback runs *)
| UtteranceEnds (i : nat)
| UtteranceFails (i : nat)
| CancelledReports (i : nat)          (* the error event of a cancelled utterance *)
| TtsSwitchedOff.

Inductive speech_step : Speech -> SpeechEvent -> Speech -> Prop :=
| step_trigger s rq :
    speech_step s (Trigger rq) (speakValue rq s)
| step_timer s throws now :
    timers s <> [] ->
    speech_step s (TimerFires throws now) (timerCallback throws now s)
| step_end s i :
    (i < length (queue s))%nat ->
    speech_step s (UtteranceEnds i) (onend i s)
| step_error s i :
    (i < length (queue s))%nat ->
    speech_step s (UtteranceFails i) (onerror i s)
| step_cancelled s i :
    (i < length (cancelled s))%nat ->
    speech_step s (CancelledReports i) (onCancelledError i s)
| step_off s :
    speech_step s TtsSwitchedOff (onTtsDisabled s).

(** The page right after [DOMContentLoaded]. *)
Definition initialSpeech (avail : bool) (vs : list Voice) : Speech :=
  {| available := avail; voices := vs; isSpeaking := false;
     timers := []; queue := []; cancelled := [] |}.

Inductive reachable : Speech -> Prop :=
| reach_init avail vs : reachable (initialSpeech avail vs)
| reach_step s ev s' : reachable s -> speech_step s ev s' -> reachable s'.

(** The states reached while TTS is never switched off. *)
Inductive reachable_on : Speech -> Prop :=
| on_init avail vs : reachable_on (initialSpeech avail vs)
| on_step s ev s' :
    reachable_on s -> ev <> TtsSwitchedOff -> speech_step s ev s' -> reachable_on s'.

(** Executable counterpart of [speech_step]: an event that cannot happen in
    the state at hand leaves it as it is. *)
Definition run_event (s : Speech) (ev : SpeechEvent) : Speech :=
  match ev with
  | Trigger rq => speakValue rq s
  | TimerFires throws now => timerCallback throws now s
  | UtteranceEnds i => if (i <? length (queue s))%nat then onend i s else s
  | UtteranceFails i => if (i <? length (queue s))%nat then onerror i s else s
  | CancelledReports i =>
      if (i <? length (cancelled s))%nat then onCancelledError i s else s
  | TtsSwitchedOff => onTtsDisabled s
  end.

(** ** The application state *)

(** The item ['ontime-tts-config'] of [localStorage], described by what
    [JSON.parse] makes of it. *)
Inductive StoredItem :=
| Malformed                                     (* JSON.parse throws *)
| Stored (config : gmap jsstring MonitorConfig).

(** The module-level variables, the check box [#tts-enabled] and the
    storage item. *)
Record AppState := {
  localData : gmap jsstring RuntimeVal;
  customFields : gmap jsstring CustomFieldDefinition;
  monitoredFields : gmap jsstring MonitorConfig;
  previousValues : gmap jsstring JsVal;
  ttsEnabled : bool;
  speech : Speech;
  savedConfig : option StoredItem
}.

Definition set_localData (d : gmap jsstring RuntimeVal) (st : AppState) : AppState :=
  {| localData := d; customFields := customFields st;
     monitoredFields := monitoredFields st; previousValues := previousValues st;
     ttsEnabled := ttsEnabled st; speech := speech st;
     savedConfig := savedConfig st |}.

Definition set_customFields (c : gmap jsstring CustomFieldDefinition) (st : AppState) : AppState :=
  {| localData := localData st; customFields := c;
     monitoredFields := monitoredFields st; previousValues := previousValues st;
     ttsEnabled := ttsEnabled st; speech := speech st;
     savedConfig := savedConfig st |}.

Definition set_monitoredFields (m : gmap jsstring MonitorConfig) (st : AppState) : AppState :=
  {| localData := localData st; customFields := customFields st;
     monitoredFields := m; previousValues := previousValues st;
     ttsEnabled := ttsEnabled st; speech := speech st;
     savedConfig := savedConfig st |}.

Definition set_previousValues (p : gmap jsstring JsVal) (st : AppState) : AppState :=
  {| localData := localData st; customFields := customFields st;
     monitoredFields := monitoredFields st; previousValues := p;
     ttsEnabled := ttsEnabled st; speech := speech st;
     savedConfig := savedConfig st |}.

Definition set_speech (s : Speech) (st : AppState) : AppState :=
  {| localData := localData st; customFields := customFields st;
     monitoredFields := monitoredFields st; previousValues := previousValues st;
     ttsEnabled := ttsEnabled st; speech := s;
     savedConfig := savedConfig st |}.

Definition set_savedConfig (i : option StoredItem) (st : AppState) : AppState :=
  {| localData := localData st; customFields := customFields st;
     monitoredFields := monitoredFields st; previousValues := previousValues st;
     ttsEnabled := ttsEnabled st; speech := speech st;
     savedConfig := i |}.

(** The texts written into [#fields-container]. *)
Inductive InfoText :=
| NoCustomFieldsFound
| NoTextCustomFieldsFound
| NoFieldsConfigured
| ErrorLoadingStatus (status : N)
| ErrorLoading
| FieldRows (keys : gset jsstring).

(** The lines the monitoring engine writes to the console. *)
Inductive LogLine :=
| NoValidValue (fieldKey : jsstring) (v : JsVal)
| CouldNotBeParsed (fieldKey : jsstring) (v : JsVal)
| Parsed (fieldKey : jsstring) (v : JsVal) (seconds : jsnum) (thr : Z)
| AboveThreshold (fieldKey : jsstring) (seconds : jsnum) (thr : Z)
| Triggering (fieldKey : jsstring) (seconds : jsnum).

(** What a handler does besides changing the state, in the order it does
    it: requests, writes to the page, console lines of the monitoring
    engine, and its calls of [speakValue]. *)
Inductive Action :=
| FetchCustomFields
| SetFieldsContainer (t : InfoText)
| PopulateVoiceOptions
| PopulateAddFieldDropdown (options : gmap jsstring jsstring) (addDisabled : bool)
| UpdateCurrentValues
| UpdateMonitoringDisplay
| ConsoleLog (l : LogLine)
| CallSpeakValue (rq : Request).

(** A handler's result: the next state and what it did. *)
Abbreviation Outcome := (AppState * list Action)%type.

Definition ret (st : AppState) : Outcome := (st, []).

Definition emit (a : Action) (st : AppState) : Outcome := (st, [a]).

(** Run [f] after [o], appending what it does. *)
Definition andThen (o : Outcome) (f : AppState -> Outcome) : Outcome :=
  let '(st1, acts1) := o in
  let '(st2, acts2) := f st1 in
  (st2, acts1 ++ acts2).

Notation "o >>> f" := (andThen o f) (at level 61, left associativity).

(** ** The monitoring engine *)

(** [event?.id || eventType] *)
Definition eventIdOf (event : option RuntimeVal) (eventType : jsstring) : jsstring :=
  match event with
  | Some (RVEvent e) =>
      match id e with
      | Some (c :: s) => c :: s
      | _ => eventType
      end
  | _ => eventType
  end.

(** [`${eventId}-${fieldKey}`] *)
Definition uniqueKey (eventId fieldKey : jsstring) : jsstring :=
  eventId ++ js "-" ++ fieldKey.

(** The body of the [forEach] in [checkEventFields], for one entry of the
    [custom] object. *)
Definition checkField (eventId : jsstring) (st : AppState)
    (entry : jsstring * JsVal) : Outcome :=
  let '(fieldKey, fieldValue) := entry in
  match monitoredFields st !! fieldKey with
  | None => ret st
  | Some config =>
      if negb (enabled config) then ret st
      else
        let key := uniqueKey eventId fieldKey in
        if decide (previousValues st !! key = Some fieldValue) then ret st
        else
          let st1 := set_previousValues (<[key := fieldValue]> (previousValues st)) st in
          match fieldValue with
          | JStr (_ :: _) =>
              match parseTimeToSeconds fieldValue with
              | None => emit (ConsoleLog (CouldNotBeParsed fieldKey fieldValue)) st1
              | Some seconds =>
                  emit (ConsoleLog (Parsed fieldKey fieldValue seconds (threshold config))) st1
                  >>> fun st2 =>
                  if num_gt seconds (Num (threshold config)) then
                    emit (ConsoleLog (AboveThreshold fieldKey seconds (threshold config))) st2
                  else
                    let rq := {| rq_field := fieldKey; rq_seconds := seconds;
                                 rq_config := config |} in
                    emit (ConsoleLog (Triggering fieldKey seconds)) st2
                    >>> fun st3 =>
                    emit (CallSpeakValue rq) (set_speech (speakValue rq (speech st3)) st3)
              end
          | _ => emit (ConsoleLog (NoValidValue fieldKey fieldValue)) st1
          end
  end.

(** [forEach] over the entries, in order. *)
Fixpoint forEach {A} (f : AppState -> A -> Outcome) (l : list A) (st : AppState) : Outcome :=
  match l with
  | [] => ret st
  | x :: tl => f st x >>> forEach f tl
  end.

(** The first two lines of [checkEventFields]: the event is looked up by
    its role, and its id, or else the role, is the event's part of the cache
    key. *)
Definition eventIdFor (eventType : jsstring) (st : AppState) : jsstring :=
  let event :=
    if decide (eventType = js "current") then localData st !! js "eventNow"
    else localData st !! js "eventNext" in
  eventIdOf event eventType.

(** [checkEventFields(customValues, eventType)] *)
Definition checkEventFields (customValues : list (jsstring * JsVal))
    (eventType : jsstring) (st : AppState) : Outcome :=
  forEach (checkField (eventIdFor eventType st)) customValues st.

(** [event && event.custom], then [checkEventFields(event.custom, role)] *)
Definition checkEventOf (slot role : jsstring) (st : AppState) : Outcome :=
  match localData st !! slot with
  | Some (RVEvent e) =>
      match custom e with
      | Some customValues => checkEventFields customValues role st
      | None => ret st
      end
  | _ => ret st
  end.

(** [checkMonitoredFields()] *)
Definition checkMonitoredFields (st : AppState) : Outcome :=
  checkEventOf (js "eventNow") (js "current") st
  >>> checkEventOf (js "eventNext") (js "next")
  >>> emit UpdateMonitoringDisplay.

(** ** The socket *)

(** [handleOntimePayload(payload)]; the spread [{...localData, ...payload}]
    is the union in which [payload] wins. *)
Definition handleOntimePayload (payload : gmap jsstring RuntimeVal) (st : AppState) : Outcome :=
  let st1 := set_localData (payload ∪ localData st) st in
  (if decide (is_Some (payload !! js "eventNow") \/ is_Some (payload !! js "eventNext"))
   then emit UpdateCurrentValues st1 else ret st1)
  >>> fun st2 =>
  if ttsEnabled st2 then checkMonitoredFields st2 else ret st2.

(** [websocket.onmessage], for a frame that parses to [{ tag, payload }]. *)
Definition onmessage (tag : jsstring) (payload : gmap jsstring RuntimeVal)
    (st : AppState) : Outcome :=
  if decide (tag = js "runtime-data") then handleOntimePayload payload st
  else ret st.

(** ** The field catalog and the configuration *)

Definition isTextField (f : CustomFieldDefinition) : Prop := ftype f = js "text".

(** [populateAddFieldDropdown()]: the text fields that are not monitored,
    each with its label; the add button is disabled when there is none. *)
Definition populateAddFieldDropdown (st : AppState) : Outcome :=
  let textFields :=
    filter (fun kf => isTextField kf.2 /\ monitoredFields st !! kf.1 = None)
           (customFields st) in
  emit (PopulateAddFieldDropdown (label <$> textFields)
          (bool_decide (textFields = ∅))) st.

(** [renderFieldsConfiguration()] *)
Definition renderFieldsConfiguration (st : AppState) : Outcome :=
  let textFields := filter (fun kf => isTextField kf.2) (customFields st) in
  if decide (textFields = ∅) then
    emit (SetFieldsContainer NoTextCustomFieldsFound) st
  else
    let fieldsToShow :=
      filter (fun kf => is_Some (monitoredFields st !! kf.1)) textFields in
    if decide (fieldsToShow = ∅) then
      emit (SetFieldsContainer NoFieldsConfigured) st
    else
      emit (SetFieldsContainer (FieldRows (dom fieldsToShow))) st
      >>> emit PopulateVoiceOptions
      >>> populateAddFieldDropdown.

(** How the request for the field definitions ends: [fetch] rejects, or a
    response arrives with its status, what [response.json()] gives
    ([None]: it rejects) and what [response.text()] gives. *)
Inductive FetchOutcome :=
| FetchRejects
| FetchResponse (status : N) (json : option (gmap jsstring CustomFieldDefinition))
                (body : option jsstring).

(** [response.ok] *)
Definition response_ok (status : N) : bool := ((200 <=? status) && (status <=? 299))%N.

(** [loadCustomFields()], given how the request ends. *)
Definition loadCustomFields (o : FetchOutcome) (st : AppState) : Outcome :=
  emit FetchCustomFields st >>> fun st =>
  match o with
  | FetchRejects => emit (SetFieldsContainer ErrorLoading) st
  | FetchResponse status json body =>
      if response_ok status then
        match json with
        | None => emit (SetFieldsContainer ErrorLoading) st
        | Some fields =>
            let st1 := set_customFields fields st in
            if decide (fields = ∅) then
              emit (SetFieldsContainer NoCustomFieldsFound) st1
              >>> populateAddFieldDropdown
            else
              renderFieldsConfiguration st1 >>> populateAddFieldDropdown
        end
      else
        match body with
        | None => emit (SetFieldsContainer ErrorLoading) st
        | Some _ => emit (SetFieldsContainer (ErrorLoadingStatus status)) st
        end
  end.

(** The property names every plain object inherits from
    [Object.prototype]; each of them reads as a truthy value (a function,
    or the prototype itself) on an object that has no property of its own
    of that name. *)
Definition objectPrototypeNames : list jsstring :=
  [js "constructor"; js "__defineGetter__"; js "__defineSetter__";
   js "hasOwnProperty"; js "__lookupGetter__"; js "__lookupSetter__";
   js "isPrototypeOf"; js "propertyIsEnumerable"; js "toString";
   js "valueOf"; js "__proto__"; js "toLocaleString"].

(** Whether [customFields[key]] is truthy: the catalog is a plain object,
    so the test holds for a field it defines (a definition is an object)
    and also for an inherited name. *)
Definition catalogHas (catalog : gmap jsstring CustomFieldDefinition)
    (key : jsstring) : Prop :=
  is_Some (catalog !! key) \/ key ∈ objectPrototypeNames.

Global Instance catalogHas_dec catalog key : Decision (catalogHas catalog key).
Proof. unfold catalogHas. apply _. Defined.

(** [saveConfiguration()]: the entries of [monitoredFields] are assigned,
    [config[key] = value], to a fresh plain object, which is written to the
    storage.  The assignment to the key "__proto__" sets the prototype of
    the object and makes no property, so [JSON.stringify] leaves that entry
    out.  The item is described by what [JSON.parse] gives back for the text
    written. *)
Definition saveConfiguration (st : AppState) : AppState :=
  let config :=
    map_fold (fun key value config =>
                if decide (key = js "__proto__") then config
                else <[key := value]> config)
             (∅ : gmap jsstring MonitorConfig) (monitoredFields st) in
  set_savedConfig (Some (Stored config)) st.

(** [loadSavedConfiguration()] *)
Definition loadSavedConfiguration (st : AppState) : Outcome :=
  match savedConfig st with
  | None => ret st
  | Some Malformed => ret st
  | Some (Stored config) =>
      let loaded :=
        map_fold (fun key value m =>
                    if decide (catalogHas (customFields st) key)
                    then <[key := value]> m else m)
                 (monitoredFields st) config in
      renderFieldsConfiguration (set_monitoredFields loaded st)
      >>> emit UpdateMonitoringDisplay
  end.

(** [monitoredFields.get(fieldKey) || { enabled: false, threshold: 10, ... }] *)
Definition configOrDefault (st : AppState) (fieldKey : jsstring) : MonitorConfig :=
  match monitoredFields st !! fieldKey with
  | Some config => config
  | None => defaultConfig false
  end.

(** [n || d] for a number [n]: [0] and [NaN] give [d]. *)
Definition num_or (n : jsnum) (d : Z) : Z :=
  match n with
  | Num z => if z =? 0 then d else z
  | NaN => d
  end.

(** The [change] handler for an input of class [field-threshold] whose
    value is [value]. *)
Definition onThresholdChange (fieldKey value : jsstring) (st : AppState) : AppState :=
  let config := configOrDefault st fieldKey in
  let config' :=
    {| enabled := enabled config;
       threshold := num_or (parseInt10 value) 10;
       voice := voice config;
       language := language config |} in
  saveConfiguration (set_monitoredFields (<[fieldKey := config']> (monitoredFields st)) st).

(** The [click] handler of a button of class [remove-field-btn]. *)
Definition onRemoveField (fieldKey : jsstring) (st : AppState) : Outcome :=
  let st1 := set_monitoredFields (delete fieldKey (monitoredFields st)) st in
  let st2 := set_previousValues (delete fieldKey (previousValues st1)) st1 in
  renderFieldsConfiguration (saveConfiguration st2)
  >>> emit UpdateMonitoringDisplay.

(** The [click] handler of [#add-field-btn], [fieldKey] being the value of
    the select: [if (fieldKey && customFields[fieldKey])]. *)
Definition onAddField (fieldKey : jsstring) (st : AppState) : Outcome :=
  match fieldKey with
  | _ :: _ =>
      if decide (catalogHas (customFields st) fieldKey) then
        let st1 := set_monitoredFields
                     (<[fieldKey := defaultConfig true]> (monitoredFields st)) st in
        renderFieldsConfiguration (saveConfiguration st1)
        >>> emit UpdateMonitoringDisplay
        >>> populateAddFieldDropdown
      else ret st
  | [] => ret st
  end.

(** ** Words used to state the properties *)

Definition all_digits (w : jsstring) : Prop := Forall (fun c => is_digit c = true) w.

(** The number a run of decimal digits writes. *)
Definition dec_value (w : jsstring) : Z :=
  fold_left (fun acc c => 10 * acc + (Z.of_N c - 48)) w 0.

(** [H:MM:SS] or [HH:MM:SS] *)
Definition is_hms (s h m sec : jsstring) : Prop :=
  s = h ++ colon :: m ++ colon :: sec /\
  all_digits h /\ (1 <= length h <= 2)%nat /\
  all_digits m /\ length m = 2%nat /\
  all_digits sec /\ length sec = 2%nat.

(** [M:SS] or [MM:SS] *)
Definition is_ms (s m sec : jsstring) : Prop :=
  s = m ++ colon :: sec /\
  all_digits m /\ (1 <= length m <= 2)%nat /\
  all_digits sec /\ length sec = 2%nat.

(** The calls of [speakValue] among some actions. *)
Definition speakCalls (acts : list Action) : list Request :=
  omap (fun a => match a with CallSpeakValue rq => Some rq | _ => None end) acts.

(** The requests among some actions. *)
Definition fetches (acts : list Action) : nat :=
  length (List.filter (fun a => match a with FetchCustomFields => true | _ => false end) acts).

(** Whether some actions write an informational text to the page. *)
Definition showsInfoText (acts : list Action) : Prop :=
  exists t, In (SetFieldsContainer t) acts /\
    match t with FieldRows _ => False | _ => True end.


(** What it means for a pattern to match from one matcher state to another,
    by recursion on the pattern. *)
Fixpoint iter (R : mstate -> mstate -> Prop) (n : nat) (st st' : mstate) : Prop :=
  match n with
  | O => st' = st
  | S n' => exists st1, R st st1 /\ iter R n' st1 st'
  end.

Fixpoint matches (r : regex) (st st' : mstate) : Prop :=
  match r with
  | RDigit => exists c tl, rest st = c :: tl /\ is_digit c = true /\ st' = advance st tl
  | RChar a => exists tl, rest st = a :: tl /\ st' = advance st tl
  | RSeq r1 r2 => exists st1, matches r1 st st1 /\ matches r2 st1 st'
  | RAlt r1 r2 => matches r1 st st' \/ matches r2 st st'
  | RRep lo hi r1 => exists n, (lo <= n <= hi)%nat /\ iter (matches r1) n st st'
  | RGroup i r1 =>
      exists st1, matches r1 st st1 /\
        st' = set_cap i (firstn (pos st1 - pos st) (rest st)) st1
  | RBol => pos st = 0%nat /\ st' = st
  | REol => rest st = [] /\ st' = st
  end.

(** An entry the engine has nothing to do for: its field is not monitored,
    or switched off, or its value is the cached one. *)
Definition settled (eventId : jsstring) (st : AppState) (fieldKey : jsstring) (v : JsVal) : Prop :=
  match monitoredFields st !! fieldKey with
  | None => True
  | Some config =>
      enabled config = false \/
      previousValues st !! uniqueKey eventId fieldKey = Some v
  end.


(** ** A page to run the definitions on *)

Definition sampleConfig (thr : Z) : MonitorConfig :=
  {| enabled := true; threshold := thr; voice := []; language := js "en-US" |}.

Definition sampleEvent (v : JsVal) : OntimeEvent :=
  {| id := Some (js "ev1"); custom := Some [(js "timer", v)] |}.

Definition sampleState : AppState :=
  {| localData := {[ js "eventNow" := RVEvent (sampleEvent (JStr (js "00:10"))) ]};
     customFields :=
       {[ js "timer" := {| label := js "Timer"; ftype := js "text"; colour := js "red" |} ]};
     monitoredFields := {[ js "timer" := sampleConfig 10 ]};
     previousValues := ∅;
     ttsEnabled := true;
     speech := initialSpeech true [];
     savedConfig := None |}.

Definition sampleRequest (s : Z) : Request :=
  {| rq_field := js "timer"; rq_seconds := Num s; rq_config := sampleConfig 10 |}.

(** The engine holds at most one utterance, and none while the flag
    [isSpeaking] is clear; no cancelled utterance has its report pending;
    without an engine nothing waits and nothing is held. *)
Definition gate_inv (s : Speech) : Prop :=
  (length (queue s) <= 1)%nat /\
  (isSpeaking s = false -> queue s = []) /\
  cancelled s = [] /\
  (available s = false -> timers s = [] /\ queue s = []).

(** The dispatcher after a run of events. *)
Definition run_events (evs : list SpeechEvent) (s : Speech) : Speech :=
  fold_left run_event evs s.

(** Whether some actions populate the add-field dropdown at all. *)
Definition populatesDropdown (acts : list Action) : Prop :=
  exists options disabled, In (PopulateAddFieldDropdown options disabled) acts.

(** The request for the field definitions failed: no response, a status
    outside 200..299, or a body that is not JSON. *)
Definition fetchFailed (o : FetchOutcome) : Prop :=
  match o with
  | FetchRejects => True
  | FetchResponse status json _ => response_ok status = false \/ json = None
  end.

(** The request succeeded with no field at all. *)
Definition fetchedNothing (o : FetchOutcome) : Prop :=
  match o with
  | FetchRejects => False
  | FetchResponse status json _ => response_ok status = true /\ json = Some ∅
  end.

(** A page that has just been loaded: nothing is monitored yet. *)
Definition freshPage (catalog : gmap jsstring CustomFieldDefinition)
    (item : option StoredItem) : AppState :=
  {| localData := ∅; customFields := catalog; monitoredFields := ∅;
     previousValues := ∅; ttsEnabled := true;
     speech := initialSpeech true []; savedConfig := item |}.

(** The sample page after its event was delivered once. *)
Definition sampleDelivered : AppState :=
  (checkEventFields [(js "timer", JStr (js "00:10"))] (js "current") sampleState).1.

(** A run in which the report of a cancelled utterance comes late: an
    utterance is being spoken when TTS is switched off; two requests follow
    while the engine is idle; the report of the cancelled utterance arrives
    between their two timer callbacks. *)
Definition lateReportRun : list SpeechEvent :=
  [Trigger (sampleRequest 10); TimerFires false (sampleConfig 10); TtsSwitchedOff;
   Trigger (sampleRequest 9); Trigger (sampleRequest 8);
   TimerFires false (sampleConfig 10); CancelledReports 0;
   TimerFires false (sampleConfig 10)].

(** A page that monitors the field "toString", which its catalog does not
    define (the field was deleted in Ontime after it had been added). *)
Definition staleToString : AppState :=
  {| localData := ∅; customFields := ∅;
     monitoredFields := {[ js "toString" := sampleConfig 10 ]};
     previousValues := ∅; ttsEnabled := true;
     speech := initialSpeech true []; savedConfig := None |}.

(** A page whose catalog defines a text field with the key "__proto__",
    which is monitored. *)
Definition monitoredProto : AppState :=
  {| localData := ∅;
     customFields :=
       {[ js "__proto__" :=
            {| label := js "Proto"; ftype := js "text"; colour := js "red" |} ]};
     monitoredFields := {[ js "__proto__" := sampleConfig 10 ]};
     previousValues := ∅; ttsEnabled := true;
     speech := initialSpeech true []; savedConfig := None |}.

(** A page that monitors two fields, "timer" and "ev1-timer"; its current
    event is "ev1". *)
Definition sampleColliding : AppState :=
  {| localData := {[ js "eventNow" := RVEvent (sampleEvent (JStr (js "00:10"))) ]};
     customFields :=
       {[ js "timer" := {| label := js "Timer"; ftype := js "text"; colour := js "red" |};
          js "ev1-timer" :=
            {| label := js "Other"; ftype := js "text"; colour := js "blue" |} ]};
     monitoredFields :=
       {[ js "timer" := sampleConfig 10; js "ev1-timer" := sampleConfig 10 ]};
     previousValues := ∅;
     ttsEnabled := true;
     speech := initialSpeech true [];
     savedConfig := None |}.

(** ** The rest of the script *)

(** [a <= b]: false as soon as one side is [NaN]. *)
Definition num_le (a b : jsnum) : bool :=
  match a, b with
  | Num x, Num y => x <=? y
  | _, _ => false
  end.

(** Truthiness of a field value: [null], [false], [0] and the empty string
    are falsy. *)
Definition truthy (v : JsVal) : bool :=
  match v with
  | JNull => false
  | JBool b => b
  | JNum z => negb (z =? 0)
  | JStr s => match s with [] => false | _ :: _ => true end
  | JObj _ => true
  end.

(** [obj[key]] on an object given by its entries. *)
Fixpoint entryOf (l : list (jsstring * JsVal)) (key : jsstring) : option JsVal :=
  match l with
  | [] => None
  | (k, v) :: tl => if decide (k = key) then Some v else entryOf tl key
  end.

(** What [custom[fieldKey]] gives when it is truthy: a value of the
    payload, or, when [custom] has no property of its own of that name, what
    every object inherits under it (a function, or the prototype). *)
Inductive CustomValue :=
| OwnValue (v : JsVal)
| Inherited (name : jsstring).

(** [event && event.custom && event.custom[fieldKey]], when it is truthy. *)
Definition customValueOf (slot fieldKey : jsstring) (st : AppState) : option CustomValue :=
  match localData st !! slot with
  | Some (RVEvent e) =>
      match custom e with
      | Some l =>
          match entryOf l fieldKey with
          | Some v => if truthy v then Some (OwnValue v) else None
          | None =>
              if decide (fieldKey ∈ objectPrototypeNames)
              then Some (Inherited fieldKey) else None
          end
      | None => None
      end
  | _ => None
  end.

(** [parseTimeToSeconds(currentValue)]: an inherited function or object is
    no string. *)
Definition parseCustomValue (currentValue : CustomValue) : option jsnum :=
  match currentValue with
  | OwnValue v => parseTimeToSeconds v
  | Inherited _ => None
  end.

(** One item of the monitoring list: the label, the value shown ([None] is
    the dash), the threshold and whether the item carries the class
    [active]. *)
Record MonitoringItem := {
  item_label : jsstring;
  item_value : option CustomValue;
  item_threshold : Z;
  item_active : bool
}.

(** [field.label] for [field = customFields[fieldKey]], when [field] is
    truthy: the label of the definition, or [undefined] when [field] is
    what every object inherits under that name. *)
Definition fieldLabel (st : AppState) (fieldKey : jsstring) : option jsstring :=
  match customFields st !! fieldKey with
  | Some field => Some (label field)
  | None =>
      if decide (fieldKey ∈ objectPrototypeNames) then Some (js "undefined") else None
  end.

(** The body of the [forEach] in [updateMonitoringDisplay], for one enabled
    field: no item when [customFields[fieldKey]] is falsy; the value of the
    current event comes first and is the only one that can make the item
    active. *)
Definition monitoringItem (st : AppState) (fieldKey : jsstring)
    (config : MonitorConfig) : option MonitoringItem :=
  match fieldLabel st fieldKey with
  | None => None
  | Some shown =>
      Some
        match customValueOf (js "eventNow") fieldKey st with
        | Some currentValue =>
            {| item_label := shown;
               item_value := Some currentValue;
               item_threshold := threshold config;
               item_active :=
                 match parseCustomValue currentValue with
                 | Some seconds => num_le seconds (Num (threshold config))
                 | None => false
                 end |}
        | None =>
            {| item_label := shown;
               item_value := customValueOf (js "eventNext") fieldKey st;
               item_threshold := threshold config;
               item_active := false |}
        end
  end.

(** What [updateMonitoringDisplay] writes into [#monitoring-list]. *)
Inductive MonitoringList :=
| NoFieldsBeingMonitored
| MonitoringItems (items : gmap jsstring MonitoringItem).

Definition updateMonitoringDisplay (st : AppState) : MonitoringList :=
  let enabledFields :=
    filter (fun kc => enabled kc.2 = true) (monitoredFields st) in
  if decide (enabledFields = ∅) then NoFieldsBeingMonitored
  else MonitoringItems (map_imap (monitoringItem st) enabledFields).

(** The [change] handler for a check box of class [field-enabled]. *)
Definition onEnabledChange (fieldKey : jsstring) (checked : bool) (st : AppState) : Outcome :=
  let config := configOrDefault st fieldKey in
  let config' :=
    {| enabled := checked;
       threshold := threshold config;
       voice := voice config;
       language := language config |} in
  emit UpdateMonitoringDisplay
    (saveConfiguration
       (set_monitoredFields (<[fieldKey := config']> (monitoredFields st)) st)).

(** The [change] handler for a select of class [field-language]: the voice
    is cleared with it. *)
Definition onLanguageChange (fieldKey value : jsstring) (st : AppState) : Outcome :=
  let config := configOrDefault st fieldKey in
  let config' :=
    {| enabled := enabled config;
       threshold := threshold config;
       voice := [];
       language := value |} in
  emit PopulateVoiceOptions
    (saveConfiguration
       (set_monitoredFields (<[fieldKey := config']> (monitoredFields st)) st)).

(** The [change] handler for a select of class [field-voice]. *)
Definition onVoiceChange (fieldKey value : jsstring) (st : AppState) : AppState :=
  let config := configOrDefault st fieldKey in
  let config' :=
    {| enabled := enabled config;
       threshold := threshold config;
       voice := value;
       language := language config |} in
  saveConfiguration (set_monitoredFields (<[fieldKey := config']> (monitoredFields st)) st).



(** [s.startsWith(p)] *)
Fixpoint startsWith (s p : jsstring) : bool :=
  match p, s with
  | [], _ => true
  | _ :: _, [] => false
  | a :: p', b :: s' => (a =? b)%N && startsWith s' p'
  end.

(** [s.split(sep)] for a separator of one code unit. *)
Fixpoint split (sep : N) (s : jsstring) : list jsstring :=
  match s with
  | [] => [[]]
  | c :: tl =>
      if (c =? sep)%N then [] :: split sep tl
      else match split sep tl with
           | w :: ws => (c :: w) :: ws
           | [] => [[c]]
           end
  end.

(** [getAvailableVoices()] *)
Definition getAvailableVoices (s : Speech) : list Voice :=
  if available s then voices s else [].

(** [config.language.split('-')[0]] *)
Definition langCodeOf (lang : jsstring) : jsstring :=
  match split 45 lang with
  | w :: _ => w
  | [] => []
  end.

(** The options [populateVoiceOptions] puts after "Default" into a voice
    select, each with its [selected] mark: the voices whose language starts
    with the primary subtag of [lang]; [chosen] is [config.voice], if
    there is one. *)
Definition voiceOptions (s : Speech) (lang : jsstring) (chosen : option jsstring)
    : list (Voice * bool) :=
  List.map (fun v => (v, bool_decide (chosen = Some (voiceURI v))))
    (List.filter (fun v => startsWith (vlang v) (langCodeOf lang))
       (getAvailableVoices s)).

(** [populateVoiceOptions()] for the select of [fieldKey]; for a field that
    is not monitored the literal [{ language: 'en-US' }] stands in. *)
Definition voiceOptionsFor (fieldKey : jsstring) (st : AppState) : list (Voice * bool) :=
  match monitoredFields st !! fieldKey with
  | Some config => voiceOptions (speech st) (language config) (Some (voice config))
  | None => voiceOptions (speech st) (js "en-US") None
  end.

(** [s.includes(p)] *)
Fixpoint includes (s p : jsstring) : bool :=
  startsWith s p ||
  match s with
  | [] => false
  | _ :: tl => includes tl p
  end.

(** [getStageHash()], for the address [href] of the page. *)
Definition getStageHash (href : jsstring) : jsstring :=
  if negb (includes href (js "getontime.no")) then []
  else
    match nth_error (split 47 href) 3 with
    | Some (c :: stageHash) => 47%N :: c :: stageHash
    | _ => []
    end.

(** ** More words for the properties *)

Definition all_ws (w : jsstring) : Prop := Forall (fun c => is_ws c = true) w.

(** What [parseTimeToSeconds] makes of a string once it is trimmed. *)
Definition parseTrimmed (t : jsstring) : option jsnum :=
  match regex_match timePattern t with
  | None => None
  | Some m =>
      if decide (is_Some (m !! 1%nat)) then
        Some (num_add (num_add (num_mul (parseGroup m 1) (Num 3600))
                               (num_mul (parseGroup m 2) (Num 60))) (parseGroup m 3))
      else if decide (is_Some (m !! 4%nat)) then
        Some (num_add (num_mul (parseGroup m 4) (Num 60)) (parseGroup m 5))
      else None
  end.

(** ** More sample data *)

Definition anna : Voice :=
  {| voiceURI := js "urn:anna"; vname := js "Anna"; vlang := js "de-DE" |}.

Definition kate : Voice :=
  {| voiceURI := js "urn:kate"; vname := js "Kate"; vlang := js "en-GB" |}.

Definition alex : Voice :=
  {| voiceURI := js "urn:alex"; vname := js "Alex"; vlang := js "en-US" |}.

(** The sample page on an engine with three voices. *)
Definition sampleVoiced : AppState :=
  set_speech (initialSpeech true [anna; kate; alex]) sampleState.

(** Every monitored key passes the test [customFields[key]]: the catalog
    defines the field, or the key is a name every object inherits. *)
Definition monitored_in_catalog (st : AppState) : Prop :=
  forall k, is_Some (monitoredFields st !! k) -> catalogHas (customFields st) k.

(** The stored item is the monitored mapping, but for the key "__proto__",
    which a plain object does not store. *)
Definition saved_in_step (st : AppState) : Prop :=
  savedConfig st = Some (Stored (delete (js "__proto__") (monitoredFields st))).

(** How one timer callback goes: whether [speak] raises, and what the
    config object of its request holds by then. *)
Definition fire (f : bool * MonitorConfig) : SpeechEvent := TimerFires f.1 f.2.

(** Of requests whose callbacks run one after the other on an idle engine,
    the one that is spoken: the first whose [speak] does not raise. *)
Fixpoint firstSpoken (vs : list Voice) (rqs : list Request)
    (fires : list (bool * MonitorConfig)) : option Utterance :=
  match rqs, fires with
  | rq :: rqs', (throws, now) :: fires' =>
      if throws then firstSpoken vs rqs' fires'
      else Some (mkUtterance vs (asRead now rq))
  | _, _ => None
  end.

(** The options the add-field dropdown gets in a state: the labels of the
    text fields that are not monitored. *)
Definition dropdownOptions (st : AppState) : gmap jsstring jsstring :=
  label <$> filter (fun kf => isTextField kf.2 /\ monitoredFields st !! kf.1 = None)
                   (customFields st).
(** * Properties *)

(** ** The matcher finds only matches *)

Section Soundness.

Variable step : mstate -> (mstate -> option mstate) -> option mstate.
Variable R : mstate -> mstate -> Prop.
Hypothesis step_sound : forall st k res,
  step st k = Some res -> exists st', R st st' /\ k st' = Some res.

Lemma rep_sound lo n : forall cnt st k res,
  rep step lo n cnt st k = Some res ->
  exists j st', (j <= n)%nat /\ (lo <= cnt + j)%nat /\
                iter R j st st' /\ k st' = Some res.
Proof.
  induction n as [|n IH]; intros cnt st k res H; simpl in H.
  - destruct (lo <=? cnt)%nat eqn:E; [|discriminate].
    apply Nat.leb_le in E. exists 0%nat, st. simpl. repeat split; auto; lia.
  - destruct (step st _) as [r1|] eqn:E1.
    + inversion H; subst r1; clear H.
      apply step_sound in E1 as (st1 & HR & Hk).
      apply IH in Hk as (j & st' & Hj & Hlo & Hit & Hk).
      exists (S j), st'. repeat split; [lia | lia | | exact Hk].
      simpl. exists st1. auto.
    + destruct (lo <=? cnt)%nat eqn:E; [|discriminate].
      apply Nat.leb_le in E. exists 0%nat, st. simpl. repeat split; auto; lia.
Qed.

End Soundness.

Lemma rmatch_sound r : forall st k res,
  rmatch r st k = Some res -> exists st', matches r st st' /\ k st' = Some res.
Proof.
  induction r as [|a|r1 IH1 r2 IH2|r1 IH1 r2 IH2|lo hi r IH|i r IH| |];
    intros st k res H; simpl in H.
  - destruct (rest st) as [|c tl] eqn:E; [discriminate|].
    destruct (is_digit c) eqn:D; [|discriminate].
    exists (advance st tl). split; [|exact H]. simpl. exists c, tl. rewrite E. auto.
  - destruct (rest st) as [|c tl] eqn:E; [discriminate|].
    destruct (c =? a)%N eqn:D; [|discriminate].
    apply N.eqb_eq in D. subst c.
    exists (advance st tl). split; [|exact H]. simpl. exists tl. rewrite E. auto.
  - apply IH1 in H as (st1 & H1 & H). apply IH2 in H as (st2 & H2 & H).
    exists st2. split; [|exact H]. simpl. eauto.
  - destruct (rmatch r1 st k) as [res1|] eqn:E.
    + inversion H; subst res1. apply IH1 in E as (st' & H1 & Hk).
      exists st'. simpl. auto.
    + apply IH2 in H as (st' & H2 & Hk). exists st'. simpl. auto.
  - apply (rep_sound _ _ IH) in H as (j & st' & Hj & Hlo & Hit & Hk).
    exists st'. split; [|exact Hk]. simpl. exists j. split; [lia|exact Hit].
  - apply IH in H as (st1 & H1 & Hk).
    eexists. split; [|exact Hk]. simpl. eauto.
  - destruct (pos st =? 0)%nat eqn:E; [|discriminate].
    apply Nat.eqb_eq in E. exists st. simpl. auto.
  - destruct (rest st) eqn:E; [|discriminate]. exists st. simpl. auto.
Qed.

(** A run of [n] digits consumes [n] digits and leaves the captures alone. *)
Lemma iter_digits n : forall st st',
  iter (matches RDigit) n st st' ->
  exists w, rest st = w ++ rest st' /\ all_digits w /\ length w = n /\
            pos st' = (pos st + n)%nat /\ caps st' = caps st.
Proof.
  induction n as [|n IH]; intros st st' H; simpl in H.
  - subst st'. exists []. repeat split; auto. constructor.
  - destruct H as (st1 & (c & tl & Hr & Hd & ->) & Hit).
    apply IH in Hit as (w & Hw & Hall & Hlen & Hpos & Hcaps). simpl in *.
    exists (c :: w). rewrite Hr, Hw. repeat split; auto.
    + constructor; auto.
    + simpl. lia.
    + lia.
Qed.

(** A group of digits captures exactly the digits it consumed. *)
Lemma group_digits i lo hi st st' :
  matches (RGroup i (RRep lo hi RDigit)) st st' ->
  exists w, rest st = w ++ rest st' /\ all_digits w /\
            (lo <= length w <= hi)%nat /\
            caps st' = <[i := w]> (caps st).
Proof.
  simpl. intros (st1 & (n & Hn & Hit) & ->).
  apply iter_digits in Hit as (w & Hw & Hall & Hlen & Hpos & Hcaps).
  exists w. simpl. rewrite Hcaps, Hpos, Hw.
  replace (pos st + n - pos st)%nat with (length w) by lia.
  rewrite firstn_app, Nat.sub_diag, firstn_all. simpl. rewrite app_nil_r.
  repeat split; auto; lia.
Qed.

Lemma char_step a st st' :
  matches (RChar a) st st' ->
  rest st = a :: rest st' /\ caps st' = caps st.
Proof. simpl. intros (tl & Hr & ->). simpl. auto. Qed.

(** Where the time pattern matches from the start of [s], [s] has one of
    the two shapes, and the captures are its fields. *)
Lemma timePattern_shape s st' :
  matches timePattern {| pos := 0; rest := s; caps := ∅ |} st' ->
  (exists h m sec, is_hms s h m sec /\
     caps st' = <[3%nat := sec]> (<[2%nat := m]> (<[1%nat := h]> ∅))) \/
  (exists m sec, is_ms s m sec /\
     caps st' = <[5%nat := sec]> (<[4%nat := m]> ∅)).
Proof.
  unfold timePattern.
  intros [H|H]; [left|right].
  - destruct H as (s0 & [_ ->] & s1 & G1 & s2 & C1 & s3 & G2 & s4 & C2 & s5 & G3 & [E ->]).
    apply group_digits in G1 as (h & R1 & D1 & L1 & K1).
    apply char_step in C1 as (R2 & K2).
    apply group_digits in G2 as (m & R3 & D3 & L3 & K3).
    apply char_step in C2 as (R4 & K4).
    apply group_digits in G3 as (sec & R5 & D5 & L5 & K5).
    simpl in R1, K1.
    exists h, m, sec. split.
    + unfold is_hms. repeat split; auto; try lia.
      rewrite R1, R2, R3, R4, R5, E, app_nil_r. reflexivity.
    + rewrite K5, K4, K3, K2, K1. reflexivity.
  - destruct H as (s0 & [_ ->] & s1 & G1 & s2 & C1 & s3 & G2 & [E ->]).
    apply group_digits in G1 as (m & R1 & D1 & L1 & K1).
    apply char_step in C1 as (R2 & K2).
    apply group_digits in G2 as (sec & R3 & D3 & L3 & K3).
    simpl in R1, K1.
    exists m, sec. split.
    + unfold is_ms. repeat split; auto; try lia.
      rewrite R1, R2, R3, E, app_nil_r. reflexivity.
    + rewrite K3, K2, K1. reflexivity.
Qed.

(** Both alternatives are anchored: no match starts after the first code
    unit. *)
Lemma timePattern_anchored p s :
  rmatch timePattern {| pos := S p; rest := s; caps := ∅ |} Some = None.
Proof.
  destruct (rmatch timePattern _ Some) as [res|] eqn:E; [|reflexivity].
  apply rmatch_sound in E as (st' & H & _).
  destruct H as [(s0 & [H _] & _)|(s0 & [H _] & _)]; discriminate H.
Qed.

Lemma exec_from_eq r p s :
  exec_from r p s =
    match rmatch r {| pos := p; rest := s; caps := ∅ |} Some with
    | Some res => Some res
    | None => match s with
              | _ :: tl => exec_from r (S p) tl
              | [] => None
              end
    end.
Proof. destruct s; reflexivity. Qed.

Lemma exec_from_later p s : exec_from timePattern (S p) s = None.
Proof.
  revert p. induction s as [|c s IH]; intros p;
    rewrite exec_from_eq, timePattern_anchored; auto.
Qed.

Lemma exec_from_start s :
  exec_from timePattern 0 s = rmatch timePattern {| pos := 0; rest := s; caps := ∅ |} Some.
Proof.
  rewrite exec_from_eq. destruct (rmatch timePattern _ Some); auto.
  destruct s; auto. apply exec_from_later.
Qed.

(** What [trimmed.match(timePattern)] returns, when it returns a match. *)
Lemma regex_match_shape s m :
  regex_match timePattern s = Some m ->
  (exists h mi sec, is_hms s h mi sec /\
     m = <[3%nat := sec]> (<[2%nat := mi]> (<[1%nat := h]> ∅))) \/
  (exists mi sec, is_ms s mi sec /\ m = <[5%nat := sec]> (<[4%nat := mi]> ∅)).
Proof.
  unfold regex_match. rewrite exec_from_start.
  destruct (rmatch timePattern _ Some) as [res|] eqn:E; [|discriminate].
  simpl. intros [= <-].
  apply rmatch_sound in E as (st' & H & [= ->]).
  apply timePattern_shape in H. exact H.
Qed.

Lemma digit_cases c :
  is_digit c = true ->
  (c = 48 \/ c = 49 \/ c = 50 \/ c = 51 \/ c = 52 \/
   c = 53 \/ c = 54 \/ c = 55 \/ c = 56 \/ c = 57)%N.
Proof.
  unfold is_digit. rewrite andb_true_iff, N.leb_le, N.leb_le. lia.
Qed.

Lemma digit_not_colon c : is_digit c = true -> (c =? 58)%N = false.
Proof. intros H. apply digit_cases in H. apply N.eqb_neq. lia. Qed.

Lemma colon_not_digit : is_digit 58 = false.
Proof. reflexivity. Qed.

(** Runs the matcher on an input whose digits are variables. *)
Ltac run_matcher :=
  unfold regex_match; rewrite exec_from_start; unfold colon;
  repeat match goal with
         | H : is_digit ?c = true |- _ =>
             lazymatch goal with
             | _ : (c =? 58)%N = false |- _ => fail
             | _ => pose proof (digit_not_colon c H)
             end
         end;
  repeat (progress (cbn; unfold colon;
    repeat match goal with
           | H : is_digit _ = true |- _ => rewrite H
           | H : (_ =? 58)%N = false |- _ => rewrite H
           end;
    rewrite ?colon_not_digit, ?N.eqb_refl));
  reflexivity.

Lemma match_h_mm_ss a c d e f :
  is_digit a = true -> is_digit c = true -> is_digit d = true ->
  is_digit e = true -> is_digit f = true ->
  regex_match timePattern [a; colon; c; d; colon; e; f] =
    Some (<[3%nat := [e; f]]> (<[2%nat := [c; d]]> (<[1%nat := [a]]> ∅))).
Proof. intros. run_matcher. Qed.

Lemma match_hh_mm_ss a b c d e f :
  is_digit a = true -> is_digit b = true -> is_digit c = true ->
  is_digit d = true -> is_digit e = true -> is_digit f = true ->
  regex_match timePattern [a; b; colon; c; d; colon; e; f] =
    Some (<[3%nat := [e; f]]> (<[2%nat := [c; d]]> (<[1%nat := [a; b]]> ∅))).
Proof. intros. run_matcher. Qed.

Lemma match_m_ss a e f :
  is_digit a = true -> is_digit e = true -> is_digit f = true ->
  regex_match timePattern [a; colon; e; f] =
    Some (<[5%nat := [e; f]]> (<[4%nat := [a]]> ∅)).
Proof. intros. run_matcher. Qed.

Lemma match_mm_ss a b e f :
  is_digit a = true -> is_digit b = true ->
  is_digit e = true -> is_digit f = true ->
  regex_match timePattern [a; b; colon; e; f] =
    Some (<[5%nat := [e; f]]> (<[4%nat := [a; b]]> ∅)).
Proof. intros. run_matcher. Qed.

(** ** [parseInt] on a run of digits *)

Lemma digit_not_ws c : is_digit c = true -> is_ws c = false.
Proof.
  intros H. apply digit_cases in H.
  repeat (destruct H as [->|H]; [reflexivity|]). subst c. reflexivity.
Qed.

Lemma read_digits_all w :
  all_digits w -> forall acc cnt,
  read_digits w acc cnt =
    (fold_left (fun a c => 10 * a + (Z.of_N c - 48)) w acc, (cnt + length w)%nat).
Proof.
  induction 1 as [|c w Hc Hw IH]; intros acc cnt; simpl.
  - f_equal. lia.
  - rewrite Hc, IH. f_equal. lia.
Qed.

Lemma parseInt10_digits w :
  all_digits w -> w <> [] -> parseInt10 w = Num (dec_value w).
Proof.
  intros Hall Hne. destruct w as [|c w]; [congruence|].
  pose proof (Forall_inv Hall) as Hc. simpl in Hc.
  unfold parseInt10. simpl trimStart. rewrite (digit_not_ws c Hc).
  assert (E45 : (c =? 45)%N = false)
    by (apply digit_cases in Hc; apply N.eqb_neq; lia).
  assert (E43 : (c =? 43)%N = false)
    by (apply digit_cases in Hc; apply N.eqb_neq; lia).
  rewrite E45, E43, (read_digits_all _ Hall). simpl length.
  unfold dec_value. f_equal. lia.
Qed.

(** ** The parser on the two shapes *)

Lemma all_digits_cons c w : all_digits (c :: w) -> is_digit c = true /\ all_digits w.
Proof. intros H. inversion H; auto. Qed.

(** [parseTimeToSeconds] once the match is known. *)
Lemma parse_with_match c s m :
  regex_match timePattern (trim (c :: s)) = Some m ->
  parseTimeToSeconds (JStr (c :: s)) =
    if decide (is_Some (m !! 1%nat)) then
      Some (num_add (num_add (num_mul (parseGroup m 1) (Num 3600))
                             (num_mul (parseGroup m 2) (Num 60))) (parseGroup m 3))
    else if decide (is_Some (m !! 4%nat)) then
      Some (num_add (num_mul (parseGroup m 4) (Num 60)) (parseGroup m 5))
    else None.
Proof. intros H. unfold parseTimeToSeconds. rewrite H. reflexivity. Qed.

Lemma parse_hms_caps c s h m sec :
  regex_match timePattern (trim (c :: s)) =
    Some (<[3%nat := sec]> (<[2%nat := m]> (<[1%nat := h]> ∅))) ->
  all_digits h -> h <> [] -> all_digits m -> m <> [] -> all_digits sec -> sec <> [] ->
  parseTimeToSeconds (JStr (c :: s)) =
    Some (Num (dec_value h * 3600 + dec_value m * 60 + dec_value sec)).
Proof.
  intros H Hh Nh Hm Nm Hs Ns. rewrite (parse_with_match _ _ _ H).
  unfold parseGroup. simplify_map_eq.
  rewrite !parseInt10_digits by assumption. reflexivity.
Qed.

Lemma parse_ms_caps c s m sec :
  regex_match timePattern (trim (c :: s)) =
    Some (<[5%nat := sec]> (<[4%nat := m]> ∅)) ->
  all_digits m -> m <> [] -> all_digits sec -> sec <> [] ->
  parseTimeToSeconds (JStr (c :: s)) =
    Some (Num (dec_value m * 60 + dec_value sec)).
Proof.
  intros H Hm Nm Hs Ns. rewrite (parse_with_match _ _ _ H).
  unfold parseGroup. simplify_map_eq.
  rewrite !parseInt10_digits by assumption. reflexivity.
Qed.

(** Splits the fields of a shape into their digits. *)
Ltac split_fields :=
  repeat match goal with
         | H : (_ <= length ?w <= _)%nat |- _ =>
             destruct w as [|? [|? [|? ?]]]; simpl in H; try lia; clear H
         | H : length ?w = 2%nat |- _ =>
             destruct w as [|? [|? [|? ?]]]; simpl in H; try discriminate H; clear H
         | H : all_digits (_ :: _) |- _ =>
             apply all_digits_cons in H; destruct H as [? H]
         end.

Lemma parse_hms ts h m sec :
  is_hms (trim ts) h m sec ->
  parseTimeToSeconds (JStr ts) =
    Some (Num (dec_value h * 3600 + dec_value m * 60 + dec_value sec)).
Proof.
  intros (E & Hh & Lh & Hm & Lm & Hs & Ls).
  destruct ts as [|c0 ts]; [destruct h; discriminate E|].
  split_fields; simpl in E.
  - apply parse_hms_caps; try discriminate; try (repeat constructor; assumption).
    rewrite E. apply match_h_mm_ss; assumption.
  - apply parse_hms_caps; try discriminate; try (repeat constructor; assumption).
    rewrite E. apply match_hh_mm_ss; assumption.
Qed.

Lemma parse_ms ts m sec :
  is_ms (trim ts) m sec ->
  parseTimeToSeconds (JStr ts) = Some (Num (dec_value m * 60 + dec_value sec)).
Proof.
  intros (E & Hm & Lm & Hs & Ls).
  destruct ts as [|c0 ts]; [destruct m; discriminate E|].
  split_fields; simpl in E.
  - apply parse_ms_caps; try discriminate; try (repeat constructor; assumption).
    rewrite E. apply match_m_ss; assumption.
  - apply parse_ms_caps; try discriminate; try (repeat constructor; assumption).
    rewrite E. apply match_mm_ss; assumption.
Qed.

Lemma parse_none_of_no_match s :
  (forall h m sec, ~ is_hms (trim s) h m sec) ->
  (forall m sec, ~ is_ms (trim s) m sec) ->
  parseTimeToSeconds (JStr s) = None.
Proof.
  intros N1 N2. unfold parseTimeToSeconds. destruct s as [|c s]; [reflexivity|].
  destruct (regex_match timePattern (trim (c :: s))) as [m|] eqn:E; [|reflexivity].
  apply regex_match_shape in E as [(h & mi & sec & H & _)|(mi & sec & H & _)].
  - destruct (N1 _ _ _ H).
  - destruct (N2 _ _ H).
Qed.

(** ** The monitoring engine *)

Lemma uniqueKey_inj eventId k1 k2 :
  uniqueKey eventId k1 = uniqueKey eventId k2 -> k1 = k2.
Proof.
  unfold uniqueKey. intros H. apply app_inv_head in H. apply app_inv_head in H. exact H.
Qed.

(** The composite key of a field is never the bare key of that field. *)
Lemma uniqueKey_not_bare eventId k : uniqueKey eventId k <> k.
Proof.
  unfold uniqueKey. intros H. apply (f_equal (@length N)) in H.
  rewrite !length_app in H. simpl in H. lia.
Qed.

Ltac unfold_outcome := unfold andThen, emit, ret in *.

Lemma checkField_settled eventId st k v :
  settled eventId st k v -> checkField eventId st (k, v) = (st, []).
Proof.
  unfold settled, checkField. intros H.
  destruct (monitoredFields st !! k) as [config|]; [|reflexivity].
  destruct H as [H|H].
  - rewrite H. reflexivity.
  - destruct (enabled config); [|reflexivity]. simpl.
    rewrite decide_True by exact H. reflexivity.
Qed.

Lemma checkField_frame eventId st k v :
  let st' := (checkField eventId st (k, v)).1 in
  localData st' = localData st /\ customFields st' = customFields st /\
  monitoredFields st' = monitoredFields st /\ ttsEnabled st' = ttsEnabled st /\
  savedConfig st' = savedConfig st.
Proof.
  cbv zeta. unfold checkField. unfold_outcome.
  repeat case_match; simplify_eq/=; auto.
Qed.

(** Once a change is seen, the cache takes the new value, whatever it is. *)
Lemma checkField_cache eventId st k v config :
  monitoredFields st !! k = Some config -> enabled config = true ->
  previousValues st !! uniqueKey eventId k <> Some v ->
  previousValues (checkField eventId st (k, v)).1 =
    <[uniqueKey eventId k := v]> (previousValues st).
Proof.
  intros Hm He Hc. unfold checkField. rewrite Hm, He. simpl negb. cbv iota.
  rewrite decide_False by exact Hc. unfold_outcome.
  repeat case_match; simplify_eq/=; reflexivity.
Qed.

Lemma checkField_cache_other eventId st k v key :
  key <> uniqueKey eventId k ->
  previousValues (checkField eventId st (k, v)).1 !! key = previousValues st !! key.
Proof.
  intros Hne. unfold checkField. unfold_outcome.
  repeat case_match; simplify_eq/=; try reflexivity;
    rewrite lookup_insert_ne by congruence; reflexivity.
Qed.

Lemma checkField_makes_settled eventId st k v :
  settled eventId (checkField eventId st (k, v)).1 k v.
Proof.
  destruct (checkField_frame eventId st k v) as (_ & _ & Hm & _).
  unfold settled. rewrite Hm.
  destruct (monitoredFields st !! k) as [config|] eqn:E; [|exact I].
  destruct (enabled config) eqn:En; [|auto]. right.
  destruct (decide (previousValues st !! uniqueKey eventId k = Some v)) as [Hc|Hc].
  - rewrite checkField_settled; [exact Hc|].
    unfold settled. rewrite E. auto.
  - rewrite (checkField_cache _ _ _ _ _ E En Hc). apply lookup_insert_eq.
Qed.

Lemma checkField_keeps_settled eventId st k v k' v' :
  k <> k' -> settled eventId st k v ->
  settled eventId (checkField eventId st (k', v')).1 k v.
Proof.
  intros Hne H.
  destruct (checkField_frame eventId st k' v') as (_ & _ & Hm & _).
  unfold settled in *. rewrite Hm.
  destruct (monitoredFields st !! k) as [config|]; [|exact I].
  destruct H as [H|H]; [auto|right].
  rewrite checkField_cache_other; [exact H|].
  intros E. apply uniqueKey_inj in E. contradiction.
Qed.

Lemma forEach_settled eventId l : forall st,
  (forall k v, In (k, v) l -> settled eventId st k v) ->
  forEach (checkField eventId) l st = (st, []).
Proof.
  induction l as [|[k v] l IH]; intros st H; cbn [forEach]; [reflexivity|].
  rewrite checkField_settled by (apply H; left; reflexivity).
  unfold andThen. rewrite IH by (intros; apply H; right; assumption).
  reflexivity.
Qed.

Lemma forEach_cons {A} (f : AppState -> A -> Outcome) x l st :
  (forEach f (x :: l) st).1 = (forEach f l (f st x).1).1.
Proof.
  cbn [forEach]. unfold andThen. destruct (f st x) as [st1 a1]. simpl.
  destruct (forEach f l st1). reflexivity.
Qed.

Lemma forEach_keeps_settled eventId l : forall st k v,
  ~ In k (List.map fst l) -> settled eventId st k v ->
  settled eventId (forEach (checkField eventId) l st).1 k v.
Proof.
  induction l as [|[k' v'] l IH]; intros st k v Hn H; [exact H|].
  rewrite forEach_cons. apply IH.
  - intros Hin. apply Hn. right. exact Hin.
  - apply checkField_keeps_settled; [|exact H].
    intros ->. apply Hn. left. reflexivity.
Qed.

Lemma forEach_makes_settled eventId l : forall st,
  List.NoDup (List.map fst l) ->
  forall k v, In (k, v) l ->
  settled eventId (forEach (checkField eventId) l st).1 k v.
Proof.
  induction l as [|[k' v'] l IH]; intros st Hnd k v Hin; [destruct Hin|].
  rewrite forEach_cons. simpl in Hnd. inversion Hnd as [|? ? Hfresh Hnd']; subst.
  destruct Hin as [[= -> ->]|Hin].
  - apply forEach_keeps_settled; [exact Hfresh|]. apply checkField_makes_settled.
  - apply IH; assumption.
Qed.

Lemma forEach_localData eventId l : forall st,
  localData (forEach (checkField eventId) l st).1 = localData st.
Proof.
  induction l as [|[k v] l IH]; intros st; [reflexivity|].
  rewrite forEach_cons, IH.
  destruct (checkField_frame eventId st k v) as (H & _). exact H.
Qed.

(** ** Claims on the parser *)

(** C1 (as amended). For every string that, once trimmed, is [H:MM:SS] or
    [HH:MM:SS], [parseTimeToSeconds] returns hours*3600 + minutes*60 +
    seconds; for every string that, once trimmed, is [M:SS] or [MM:SS], it
    returns minutes*60 + seconds.  The digits are not bounded: "1:99" is
    read as one minute and 99 seconds, 159 seconds. *)
Theorem parseTimeToSeconds_valid ts :
  (forall h m sec, is_hms (trim ts) h m sec ->
     parseTimeToSeconds (JStr ts) =
       Some (Num (dec_value h * 3600 + dec_value m * 60 + dec_value sec))) /\
  (forall m sec, is_ms (trim ts) m sec ->
     parseTimeToSeconds (JStr ts) = Some (Num (dec_value m * 60 + dec_value sec))) /\
  parseTimeToSeconds (JStr (js "1:99")) = Some (Num 159).
Proof.
  split; [|split].
  - intros h m sec H. apply parse_hms. exact H.
  - intros m sec H. apply parse_ms. exact H.
  - vm_compute. reflexivity.
Qed.

Lemma sample_is_hms : is_hms (trim (js " 1:02:03 ")) (js "1") (js "02") (js "03").
Proof.
  unfold is_hms. repeat split; try (vm_compute; lia);
    repeat constructor.
Defined.

Lemma parseTimeToSeconds_valid_witness :
  is_hms (trim (js " 1:02:03 ")) (js "1") (js "02") (js "03") /\
  parseTimeToSeconds (JStr (js " 1:02:03 ")) = Some (Num 3723).
Proof.
  split; [exact sample_is_hms|].
  exact (proj1 (parseTimeToSeconds_valid (js " 1:02:03 ")) _ _ _ sample_is_hms).
Defined.

(** C1, the claim as written, fails on its own example: "1:99" has the
    shape [M:SS], and the parser returns 159 for it, not 99. *)
Lemma parse_1_99_is_not_99 :
  is_ms (trim (js "1:99")) (js "1") (js "99") /\
  parseTimeToSeconds (JStr (js "1:99")) = Some (Num 159) /\
  parseTimeToSeconds (JStr (js "1:99")) <> Some (Num 99).
Proof.
  split; [|split].
  - unfold is_ms. repeat split; try (vm_compute; lia); repeat constructor.
  - vm_compute. reflexivity.
  - vm_compute. discriminate.
Qed.

(** C5. [parseTimeToSeconds] is a total function; it returns [null] for
    every value that is not a string and for every string that, once
    trimmed, has neither of the two shapes, the empty string among them. *)
Theorem parseTimeToSeconds_rejects v :
  (forall s, v = JStr s ->
     (forall h m sec, ~ is_hms (trim s) h m sec) /\
     (forall m sec, ~ is_ms (trim s) m sec)) ->
  parseTimeToSeconds v = None.
Proof.
  intros H. destruct v as [|b|z|s|r]; try reflexivity.
  destruct (H s eq_refl) as [N1 N2]. apply parse_none_of_no_match; assumption.
Qed.

Lemma parseTimeToSeconds_rejects_witness :
  parseTimeToSeconds (JNum 90) = None /\
  parseTimeToSeconds (JStr []) = None /\
  parseTimeToSeconds (JStr (js "1:5")) = None.
Proof.
  split; [|split]; apply parseTimeToSeconds_rejects; intros s E;
    try discriminate E; injection E as <-.
  - split.
    + intros h m sec (E & _). destruct h; discriminate E.
    + intros m sec (E & _). destruct m; discriminate E.
  - split.
    + intros h m sec (E & Hh & Lh & Hm & Lm & Hs & Ls).
      split_fields; vm_compute in E; discriminate E.
    + intros m sec (E & Hm & Lm & Hs & Ls).
      split_fields; vm_compute in E; discriminate E.
Defined.

(** ** Claims on the monitoring engine *)

Lemma parsed_nonempty str n : parseTimeToSeconds (JStr str) = Some n -> str <> [].
Proof. intros H ->. discriminate H. Qed.

(** What [checkField] does with a changed value that parses. *)
Lemma checkField_parsed eventId st fieldKey config str s :
  monitoredFields st !! fieldKey = Some config ->
  enabled config = true ->
  previousValues st !! uniqueKey eventId fieldKey <> Some (JStr str) ->
  parseTimeToSeconds (JStr str) = Some (Num s) ->
  let rq := {| rq_field := fieldKey; rq_seconds := Num s; rq_config := config |} in
  let st1 := set_previousValues
               (<[uniqueKey eventId fieldKey := JStr str]> (previousValues st)) st in
  checkField eventId st (fieldKey, JStr str) =
    if threshold config <? s then
      (st1, [ConsoleLog (Parsed fieldKey (JStr str) (Num s) (threshold config));
             ConsoleLog (AboveThreshold fieldKey (Num s) (threshold config))])
    else
      (set_speech (speakValue rq (speech st)) st1,
       [ConsoleLog (Parsed fieldKey (JStr str) (Num s) (threshold config));
        ConsoleLog (Triggering fieldKey (Num s));
        CallSpeakValue rq]).
Proof.
  intros Hm He Hc Hp. cbv zeta.
  pose proof (parsed_nonempty _ _ Hp) as Hne.
  destruct str as [|c str]; [congruence|].
  unfold checkField. rewrite Hm, He. simpl negb. cbv iota.
  rewrite decide_False by exact Hc.
  rewrite Hp. unfold_outcome. unfold num_gt.
  destruct (threshold config <? s); reflexivity.
Qed.

(** C2. For an enabled monitored field whose value changed and parses to
    [s] seconds, [checkField] calls [speakValue] exactly when [s] is at most
    the threshold: it does when they are equal and does not when [s] is one
    more; above the threshold the value is only logged (and cached). *)
Theorem threshold_is_inclusive eventId st fieldKey config str s :
  monitoredFields st !! fieldKey = Some config ->
  enabled config = true ->
  previousValues st !! uniqueKey eventId fieldKey <> Some (JStr str) ->
  parseTimeToSeconds (JStr str) = Some (Num s) ->
  let rq := {| rq_field := fieldKey; rq_seconds := Num s; rq_config := config |} in
  let out := checkField eventId st (fieldKey, JStr str) in
  (In (CallSpeakValue rq) out.2 <-> s <= threshold config) /\
  (s <= threshold config ->
     speakCalls out.2 = [rq] /\ speech out.1 = speakValue rq (speech st)) /\
  (threshold config < s ->
     speech out.1 = speech st /\
     out.2 = [ConsoleLog (Parsed fieldKey (JStr str) (Num s) (threshold config));
              ConsoleLog (AboveThreshold fieldKey (Num s) (threshold config))]) /\
  (s = threshold config -> speakCalls out.2 = [rq]) /\
  (s = threshold config + 1 -> speakCalls out.2 = []).
Proof.
  intros Hm He Hc Hp. cbv zeta.
  rewrite (checkField_parsed _ _ _ _ _ _ Hm He Hc Hp).
  destruct (threshold config <? s) eqn:E;
    [apply Z.ltb_lt in E | apply Z.ltb_ge in E]; simpl.
  - repeat split; try lia; auto.
    intros [H|[H|[]]]; discriminate H.
  - repeat split; try lia; auto.
Qed.

Lemma threshold_is_inclusive_witness :
  speakCalls (checkField (js "ev1") sampleState (js "timer", JStr (js "00:10"))).2
    = [sampleRequest 10] /\
  speakCalls (checkField (js "ev1") sampleState (js "timer", JStr (js "00:11"))).2
    = [].
Proof.
  split.
  - refine (proj1 (proj2 (proj2 (proj2
      (threshold_is_inclusive (js "ev1") sampleState (js "timer") (sampleConfig 10)
         (js "00:10") 10 _ _ _ _)))) _);
      vm_compute; congruence.
  - refine (proj2 (proj2 (proj2 (proj2
      (threshold_is_inclusive (js "ev1") sampleState (js "timer") (sampleConfig 10)
         (js "00:11") 11 _ _ _ _)))) _);
      vm_compute; congruence.
Defined.

Lemma forEach_actions {A} (f : AppState -> A -> Outcome) x l st :
  (forEach f (x :: l) st).2 = (f st x).2 ++ (forEach f l (f st x).1).2.
Proof.
  cbn [forEach]. unfold andThen. destruct (f st x) as [st1 a1]. simpl.
  destruct (forEach f l st1). reflexivity.
Qed.










(** ** Claims on the speech dispatcher *)

Lemma remove_nth_length {A} (l : list A) : forall i,
  (i < length l)%nat -> length (remove_nth i l) = pred (length l).
Proof.
  induction l as [|x l IH]; intros i Hi; simpl in *; [lia|].
  destruct i as [|i]; [reflexivity|].
  simpl. rewrite IH by lia. destruct l; simpl in *; lia.
Qed.

(** While TTS is not switched off the invariant is kept. *)
Lemma gate_inv_step s ev s' :
  gate_inv s -> ev <> TtsSwitchedOff -> speech_step s ev s' -> gate_inv s'.
Proof.
  intros (Hlen & Hfree & Hcan & Hno) Hev Hstep.
  destruct Hstep as [s rq|s throws now Ht|s i Hi|s i Hi|s i Hi|s].
  - unfold speakValue.
    destruct (available s) eqn:A; simpl; [|repeat split; auto; apply Hno; auto].
    destruct (isSpeaking s) eqn:G; [repeat split; auto; congruence|].
    specialize (Hfree eq_refl).
    rewrite Hfree. unfold gate_inv. simpl. rewrite Hfree, A.
    repeat split; auto; discriminate.
  - unfold timerCallback. destruct (timers s) as [|rq waiting] eqn:T; [congruence|].
    assert (A : available s = true).
    { destruct (available s); [reflexivity|]. destruct (Hno eq_refl). congruence. }
    simpl. destruct (isSpeaking s) eqn:G.
    + unfold gate_inv. simpl. rewrite A. repeat split; auto; congruence.
    + specialize (Hfree eq_refl).
      destruct throws; unfold gate_inv; simpl; rewrite Hfree, A;
        repeat split; simpl; auto; try lia; discriminate.
  - unfold onend, gate_inv. simpl.
    assert (length (remove_nth i (queue s)) = 0%nat)
      by (rewrite remove_nth_length by exact Hi; lia).
    destruct (remove_nth i (queue s)); [|discriminate].
    split; [simpl; lia|]. split; [reflexivity|]. split; [exact Hcan|]. simpl.
    intros A. destruct (Hno A). auto.
  - unfold onerror, gate_inv. simpl.
    assert (length (remove_nth i (queue s)) = 0%nat)
      by (rewrite remove_nth_length by exact Hi; lia).
    destruct (remove_nth i (queue s)); [|discriminate].
    split; [simpl; lia|]. split; [reflexivity|]. split; [exact Hcan|]. simpl.
    intros A. destruct (Hno A). auto.
  - rewrite Hcan in Hi. simpl in Hi. lia.
  - congruence.
Qed.

Lemma reachable_on_gate_inv s : reachable_on s -> gate_inv s.
Proof.
  induction 1 as [avail vs|s ev s' _ IH Hev Hstep].
  - repeat split; simpl; auto.
  - exact (gate_inv_step _ _ _ IH Hev Hstep).
Qed.

Lemma reachable_on_reachable s : reachable_on s -> reachable s.
Proof.
  induction 1 as [avail vs|s ev s' _ IH _ Hstep].
  - apply reach_init.
  - eapply reach_step; eassumption.
Qed.

(** A request made while there is no engine or while the flag is set is
    dropped: nothing is scheduled, nothing is spoken. *)
Lemma speakValue_dropped rq s :
  available s = false \/ isSpeaking s = true -> speakValue rq s = s.
Proof.
  unfold speakValue. intros [H|H].
  - rewrite H. reflexivity.
  - rewrite H. destruct (available s); reflexivity.
Qed.

(** A callback that finds the flag set gives up without an utterance. *)
Lemma timerCallback_dropped throws now s :
  isSpeaking s = true ->
  timerCallback throws now s = set_timers (tl (timers s)) s.
Proof.
  intros H. unfold timerCallback. destruct (timers s) as [|rq waiting] eqn:E.
  - destruct s; simpl in *; subst; reflexivity.
  - simpl. rewrite H. reflexivity.
Qed.

(** The flag is only ever set by a timer callback, in the step that hands
    the engine its utterance. *)
Lemma gate_acquired_with_utterance s ev s' :
  speech_step s ev s' -> isSpeaking s = false -> isSpeaking s' = true ->
  exists rq waiting now,
    ev = TimerFires false now /\ timers s = rq :: waiting /\
    queue s' = queue s ++ [mkUtterance (voices s) (asRead now rq)].
Proof.
  intros Hstep G G'. destruct Hstep as [s rq|s throws now Ht|s i Hi|s i Hi|s i Hi|s].
  - unfold speakValue in G'. rewrite G in G'.
    destruct (available s), (queue s); simpl in G'; congruence.
  - unfold timerCallback in *. destruct (timers s) as [|rq waiting]; [congruence|].
    simpl in *. rewrite G in *. destruct throws; simpl in G'; [discriminate|].
    exists rq, waiting, now. auto.
  - discriminate G'.
  - discriminate G'.
  - discriminate G'.
  - discriminate G'.
Qed.

(** Running events keeps to the states the dispatcher can reach. *)
Lemma reachable_run_event s ev : reachable s -> reachable (run_event s ev).
Proof.
  intros Hr. destruct ev as [rq|throws now|i|i|i|]; simpl.
  - eapply reach_step; [exact Hr|apply step_trigger].
  - destruct (timers s) as [|rq waiting] eqn:E.
    + unfold timerCallback. rewrite E. exact Hr.
    + eapply reach_step; [exact Hr|apply step_timer; congruence].
  - destruct (i <? length (queue s))%nat eqn:E; [|exact Hr].
    apply Nat.ltb_lt in E. eapply reach_step; [exact Hr|apply step_end; exact E].
  - destruct (i <? length (queue s))%nat eqn:E; [|exact Hr].
    apply Nat.ltb_lt in E. eapply reach_step; [exact Hr|apply step_error; exact E].
  - destruct (i <? length (cancelled s))%nat eqn:E; [|exact Hr].
    apply Nat.ltb_lt in E. eapply reach_step; [exact Hr|apply step_cancelled; exact E].
  - eapply reach_step; [exact Hr|apply step_off].
Qed.

Lemma reachable_run_events evs : forall s, reachable s -> reachable (run_events evs s).
Proof.
  induction evs as [|ev evs IH]; intros s Hr; [exact Hr|].
  apply IH. apply reachable_run_event. exact Hr.
Qed.

Lemma reachable_on_run_event s ev :
  ev <> TtsSwitchedOff -> reachable_on s -> reachable_on (run_event s ev).
Proof.
  intros Hev Hr. destruct ev as [rq|throws now|i|i|i|]; simpl.
  - eapply on_step; [exact Hr|exact Hev|apply step_trigger].
  - destruct (timers s) as [|rq waiting] eqn:E.
    + unfold timerCallback. rewrite E. exact Hr.
    + eapply on_step; [exact Hr|exact Hev|apply step_timer; congruence].
  - destruct (i <? length (queue s))%nat eqn:E; [|exact Hr].
    apply Nat.ltb_lt in E. eapply on_step; [exact Hr|exact Hev|apply step_end; exact E].
  - destruct (i <? length (queue s))%nat eqn:E; [|exact Hr].
    apply Nat.ltb_lt in E. eapply on_step; [exact Hr|exact Hev|apply step_error; exact E].
  - destruct (i <? length (cancelled s))%nat eqn:E; [|exact Hr].
    apply Nat.ltb_lt in E.
    eapply on_step; [exact Hr|exact Hev|apply step_cancelled; exact E].
  - congruence.
Qed.

Lemma reachable_on_run_events evs : forall s,
  Forall (fun ev => ev <> TtsSwitchedOff) evs ->
  reachable_on s -> reachable_on (run_events evs s).
Proof.
  induction evs as [|ev evs IH]; intros s Hall Hr; [exact Hr|].
  inversion Hall as [|? ? Hev Hall']; subst.
  apply IH; [exact Hall'|]. apply reachable_on_run_event; assumption.
Qed.

(** C4. On the code: as long as TTS is not switched off, the engine holds
    at most one utterance, and none while [isSpeaking] is clear.  Always, a
    call of [speakValue] without an engine or with the flag set changes
    nothing, a timer callback that finds the flag set only retires itself,
    and the flag is set by no step but the timer callback that hands over
    its utterance.  But the flag is also cleared when TTS is switched off
    and when a cancelled utterance reports its error, and so the exclusion
    fails: in the run [lateReportRun] the dispatcher reaches a state in
    which the engine holds two utterances. *)
Theorem gate_fails_on_late_report :
  (forall s, reachable_on s ->
     (length (queue s) <= 1)%nat /\ (isSpeaking s = false -> queue s = [])) /\
  (forall s rq, available s = false \/ isSpeaking s = true -> speakValue rq s = s) /\
  (forall s throws now, isSpeaking s = true ->
     timerCallback throws now s = set_timers (tl (timers s)) s) /\
  (forall s ev s', speech_step s ev s' ->
     isSpeaking s = false -> isSpeaking s' = true ->
     exists rq waiting now, ev = TimerFires false now /\ timers s = rq :: waiting /\
       queue s' = queue s ++ [mkUtterance (voices s) (asRead now rq)]) /\
  (reachable (run_events lateReportRun (initialSpeech true [])) /\
   queue (run_events lateReportRun (initialSpeech true [])) =
     [mkUtterance [] (sampleRequest 9); mkUtterance [] (sampleRequest 8)]).
Proof.
  split; [|split; [|split; [|split]]].
  - intros s Hr. destruct (reachable_on_gate_inv s Hr) as (Hlen & Hfree & _). auto.
  - intros s rq. apply speakValue_dropped.
  - intros s throws now. apply timerCallback_dropped.
  - intros s ev s'. apply gate_acquired_with_utterance.
  - split; [apply reachable_run_events, reach_init|]. vm_compute. reflexivity.
Qed.

Lemma gate_fails_on_late_report_witness :
  let s := run_events [Trigger (sampleRequest 10); Trigger (sampleRequest 9);
                       TimerFires false (sampleConfig 10);
                       TimerFires false (sampleConfig 10)]
                      (initialSpeech true []) in
  (length (queue s) <= 1)%nat /\ speakValue (sampleRequest 8) s = s.
Proof.
  cbv zeta.
  assert (Hr : reachable_on
                 (run_events [Trigger (sampleRequest 10); Trigger (sampleRequest 9);
                              TimerFires false (sampleConfig 10);
                              TimerFires false (sampleConfig 10)]
                             (initialSpeech true []))).
  { apply reachable_on_run_events; [|apply on_init].
    repeat constructor; discriminate. }
  split.
  - exact (proj1 (proj1 gate_fails_on_late_report _ Hr)).
  - refine (proj1 (proj2 gate_fails_on_late_report) _ (sampleRequest 8) _).
    right. vm_compute. reflexivity.
Defined.

(** ** Claims on the stored configuration *)

Lemma populateAddFieldDropdown_state st : (populateAddFieldDropdown st).1 = st.
Proof. reflexivity. Qed.

Lemma renderFieldsConfiguration_state st : (renderFieldsConfiguration st).1 = st.
Proof.
  unfold renderFieldsConfiguration. unfold_outcome. unfold populateAddFieldDropdown.
  repeat case_decide; reflexivity.
Qed.

Lemma andThen_state o f : (o >>> f).1 = (f o.1).1.
Proof. unfold andThen. destruct o as [st1 a1]. simpl. destruct (f st1). reflexivity. Qed.

Lemma andThen_actions o f : (o >>> f).2 = o.2 ++ (f o.1).2.
Proof. unfold andThen. destruct o as [st1 a1]. simpl. destruct (f st1). reflexivity. Qed.

(** Copying a map entry by entry into a plain object gives the map
    without the key "__proto__". *)
Lemma copy_entries (m : gmap jsstring MonitorConfig) :
  map_fold (fun key value config =>
              if decide (key = js "__proto__") then config
              else <[key := value]> config) ∅ m
  = delete (js "__proto__") m.
Proof.
  apply (map_fold_weak_ind (fun r m => r = delete (js "__proto__") m)).
  - symmetry. apply delete_empty.
  - intros i x m' r Hi ->. destruct (decide (i = js "__proto__")) as [->|Hne].
    + apply map_eq. intros k. destruct (decide (k = js "__proto__")) as [->|Hk].
      * rewrite !lookup_delete_eq. reflexivity.
      * rewrite !lookup_delete_ne by congruence.
        rewrite lookup_insert_ne by congruence. reflexivity.
    + apply map_eq. intros k. destruct (decide (k = js "__proto__")) as [->|Hk].
      * rewrite lookup_insert_ne by exact Hne. rewrite !lookup_delete_eq. reflexivity.
      * rewrite (lookup_delete_ne (<[i:=x]> m')) by congruence.
        destruct (decide (i = k)) as [->|Hik].
        -- rewrite !lookup_insert_eq. reflexivity.
        -- rewrite !lookup_insert_ne by exact Hik.
           rewrite lookup_delete_ne by congruence. reflexivity.
Qed.

Lemma saveConfiguration_item st :
  savedConfig (saveConfiguration st)
  = Some (Stored (delete (js "__proto__") (monitoredFields st))).
Proof. unfold saveConfiguration. simpl. rewrite copy_entries. reflexivity. Qed.

Lemma saveConfiguration_monitoredFields st :
  monitoredFields (saveConfiguration st) = monitoredFields st.
Proof. reflexivity. Qed.

(** Loading entry by entry: an entry is taken when [customFields[key]] is
    truthy, and what was monitored before stays otherwise. *)
Lemma load_entries (catalog : gmap jsstring CustomFieldDefinition)
    (base config : gmap jsstring MonitorConfig) k :
  map_fold (fun key value m =>
              if decide (catalogHas catalog key) then <[key := value]> m else m)
           base config !! k =
    match config !! k with
    | Some v => if decide (catalogHas catalog k) then Some v else base !! k
    | None => base !! k
    end.
Proof.
  revert k.
  apply (map_fold_weak_ind (fun r c => forall k, r !! k =
           match c !! k with
           | Some v => if decide (catalogHas catalog k) then Some v else base !! k
           | None => base !! k
           end)).
  - intros k. rewrite lookup_empty. reflexivity.
  - intros i x m r Hi IH k.
    destruct (decide (i = k)) as [->|Hne].
    + rewrite lookup_insert_eq. destruct (decide (catalogHas catalog k)).
      * apply lookup_insert_eq.
      * rewrite IH, Hi. reflexivity.
    + rewrite (lookup_insert_ne m) by exact Hne.
      destruct (decide (catalogHas catalog i)).
      * rewrite lookup_insert_ne by exact Hne. apply IH.
      * apply IH.
Qed.

(** C6. On the code: [saveConfiguration] followed by
    [loadSavedConfiguration] on a freshly loaded page gives, key by key, the
    monitored entry when the key is not "__proto__" and [customFields[key]]
    is truthy, and nothing otherwise.  This is the monitored mapping
    restricted to the keys the catalog defines whenever no monitored key is
    a name every object inherits; in particular the mapping comes back
    identical when the catalog defines each of its keys.  For the inherited
    names the round trip fails both ways: the stale entry "toString" is kept
    although the catalog does not define the field ([staleToString]), and
    the entry "__proto__" is lost although the catalog defines the field
    ([monitoredProto]). *)
Theorem config_round_trip_but_inherited_names st fresh :
  monitoredFields fresh = ∅ ->
  savedConfig fresh = savedConfig (saveConfiguration st) ->
  let loaded := monitoredFields (loadSavedConfiguration fresh).1 in
  (forall k, loaded !! k =
     if decide (k = js "__proto__") then None
     else if decide (catalogHas (customFields fresh) k) then monitoredFields st !! k
     else None) /\
  ((forall k, is_Some (monitoredFields st !! k) -> k ∉ objectPrototypeNames) ->
   (forall k, loaded !! k =
      if decide (is_Some (customFields fresh !! k)) then monitoredFields st !! k
      else None) /\
   (dom (monitoredFields st) ⊆ dom (customFields fresh) -> loaded = monitoredFields st)) /\
  (customFields staleToString !! js "toString" = None /\
   monitoredFields
     (loadSavedConfiguration
        (freshPage (customFields staleToString)
                   (savedConfig (saveConfiguration staleToString)))).1
   = {[ js "toString" := sampleConfig 10 ]}) /\
  (is_Some (customFields monitoredProto !! js "__proto__") /\
   monitoredFields monitoredProto = {[ js "__proto__" := sampleConfig 10 ]} /\
   monitoredFields
     (loadSavedConfiguration
        (freshPage (customFields monitoredProto)
                   (savedConfig (saveConfiguration monitoredProto)))).1
   = ∅).
Proof.
  intros Hempty Hitem. cbv zeta.
  rewrite saveConfiguration_item in Hitem.
  assert (Hk : forall k,
    monitoredFields (loadSavedConfiguration fresh).1 !! k =
      if decide (k = js "__proto__") then None
      else if decide (catalogHas (customFields fresh) k) then monitoredFields st !! k
      else None).
  { intros k. unfold loadSavedConfiguration. rewrite Hitem.
    rewrite andThen_state, renderFieldsConfiguration_state.
    simpl. rewrite load_entries, Hempty, lookup_empty.
    destruct (decide (k = js "__proto__")) as [->|Hne].
    - rewrite lookup_delete_eq. reflexivity.
    - rewrite lookup_delete_ne by congruence.
      destruct (monitoredFields st !! k); destruct (decide _); reflexivity. }
  split; [exact Hk|]. split; [|split].
  - intros Hown.
    assert (Hk' : forall k,
      monitoredFields (loadSavedConfiguration fresh).1 !! k =
        if decide (is_Some (customFields fresh !! k)) then monitoredFields st !! k
        else None).
    { intros k. rewrite Hk.
      destruct (monitoredFields st !! k) as [c|] eqn:E.
      - assert (Hnot : k ∉ objectPrototypeNames) by (apply Hown; rewrite E; eauto).
        rewrite decide_False.
        + destruct (decide (is_Some (customFields fresh !! k))) as [Hc|Hc].
          * rewrite decide_True by (left; exact Hc). reflexivity.
          * rewrite decide_False; [reflexivity|]. intros [H|H]; contradiction.
        + intros ->. apply Hnot. apply (bool_decide_unpack _). vm_compute. exact I.
      - repeat case_decide; reflexivity. }
    split; [exact Hk'|].
    intros Hdom. apply map_eq. intros k. rewrite Hk'.
    destruct (decide (is_Some (customFields fresh !! k))) as [|Hn]; [reflexivity|].
    destruct (monitoredFields st !! k) eqn:E; [|reflexivity].
    exfalso. apply Hn. apply elem_of_dom. apply Hdom. apply elem_of_dom. eauto.
  - split; [vm_compute; reflexivity|].
    apply (bool_decide_unpack _). vm_compute. exact I.
  - split; [vm_compute; eauto|]. split; [reflexivity|].
    apply (bool_decide_unpack _). vm_compute. exact I.
Qed.

Lemma config_round_trip_but_inherited_names_witness :
  monitoredFields
    (loadSavedConfiguration
       (freshPage (customFields sampleState)
                  (savedConfig (saveConfiguration sampleState)))).1
  = monitoredFields sampleState.
Proof.
  refine (proj2 (proj1 (proj2 (config_round_trip_but_inherited_names sampleState
            (freshPage (customFields sampleState)
                       (savedConfig (saveConfiguration sampleState))) _ _)) _) _).
  - reflexivity.
  - reflexivity.
  - intros k Hk. unfold sampleState in Hk. cbn [monitoredFields] in Hk.
    apply lookup_singleton_is_Some in Hk. subst k.
    apply (bool_decide_unpack _). vm_compute. exact I.
  - apply (bool_decide_unpack _). vm_compute. exact I.
Defined.

(** ** Claims on the socket *)

Lemma checkEventOf_localData slot role st :
  localData (checkEventOf slot role st).1 = localData st.
Proof.
  unfold checkEventOf, checkEventFields.
  repeat case_match; try reflexivity. apply forEach_localData.
Qed.

Lemma checkMonitoredFields_localData st :
  localData (checkMonitoredFields st).1 = localData st.
Proof.
  unfold checkMonitoredFields. rewrite !andThen_state. unfold emit. simpl.
  rewrite !checkEventOf_localData. reflexivity.
Qed.

Lemma handleOntimePayload_localData payload st :
  localData (handleOntimePayload payload st).1 = payload ∪ localData st.
Proof.
  unfold handleOntimePayload. rewrite andThen_state.
  assert (E : forall o : Outcome, localData o.1 = payload ∪ localData st ->
    localData (if ttsEnabled o.1 then checkMonitoredFields o.1 else ret o.1).1
      = payload ∪ localData st).
  { intros o Ho. destruct (ttsEnabled o.1); [|exact Ho].
    rewrite checkMonitoredFields_localData. exact Ho. }
  apply E. case_decide; reflexivity.
Qed.

(** C8. A message whose tag is not "runtime-data" changes nothing.  The
    payload of a runtime-data message is merged into the local data key by
    key: a key of the payload takes the payload's value, every other key
    keeps the value it had, and no key is ever removed. *)
Theorem runtime_data_is_merged tag payload st :
  (tag <> js "runtime-data" -> onmessage tag payload st = (st, [])) /\
  (tag = js "runtime-data" ->
     let merged := localData (onmessage tag payload st).1 in
     (forall k v, payload !! k = Some v -> merged !! k = Some v) /\
     (forall k, payload !! k = None -> merged !! k = localData st !! k) /\
     dom (localData st) ⊆ dom merged).
Proof.
  split.
  - intros Hne. unfold onmessage. rewrite decide_False by exact Hne. reflexivity.
  - intros ->. cbv zeta. unfold onmessage. rewrite decide_True by reflexivity.
    rewrite handleOntimePayload_localData. repeat split.
    + intros k v Hk. apply lookup_union_Some_l. exact Hk.
    + intros k Hk. apply lookup_union_r. exact Hk.
    + rewrite dom_union. set_solver.
Qed.

Lemma runtime_data_is_merged_witness :
  onmessage (js "ping") {[ js "eventNow" := RVOther JNull ]} sampleState
    = (sampleState, []) /\
  localData (onmessage (js "runtime-data") {[ js "clock" := RVOther (JNum 5) ]}
               sampleState).1 !! js "eventNow"
    = localData sampleState !! js "eventNow".
Proof.
  split.
  - apply (proj1 (runtime_data_is_merged (js "ping") _ sampleState)).
    vm_compute. congruence.
  - apply (proj2 (runtime_data_is_merged (js "runtime-data") _ sampleState) eq_refl).
    vm_compute. reflexivity.
Defined.

(** ** Claims on the field catalog *)

Lemma fetches_app a b : fetches (a ++ b) = (fetches a + fetches b)%nat.
Proof. unfold fetches. rewrite List.filter_app, length_app. reflexivity. Qed.

Lemma populateAddFieldDropdown_empty st :
  customFields st = ∅ ->
  populateAddFieldDropdown st = (st, [PopulateAddFieldDropdown ∅ true]).
Proof.
  intros H. unfold populateAddFieldDropdown, emit. rewrite H.
  rewrite map_filter_empty, fmap_empty. reflexivity.
Qed.

Lemma checkField_fetches eventId st entry : fetches (checkField eventId st entry).2 = 0%nat.
Proof.
  destruct entry as [k v]. unfold checkField. unfold_outcome.
  repeat case_match; simplify_eq/=; reflexivity.
Qed.

Lemma forEach_fetches eventId l : forall st,
  fetches (forEach (checkField eventId) l st).2 = 0%nat.
Proof.
  induction l as [|x l IH]; intros st; [reflexivity|].
  rewrite forEach_actions, fetches_app, checkField_fetches, IH. reflexivity.
Qed.

Lemma checkEventOf_fetches slot role st : fetches (checkEventOf slot role st).2 = 0%nat.
Proof.
  unfold checkEventOf, checkEventFields.
  repeat case_match; try reflexivity. apply forEach_fetches.
Qed.

(** The socket handler never asks for the field definitions. *)
Lemma onmessage_fetches tag payload st : fetches (onmessage tag payload st).2 = 0%nat.
Proof.
  unfold onmessage. case_decide; [|reflexivity].
  unfold handleOntimePayload. rewrite andThen_actions, fetches_app.
  assert (E : forall o : Outcome, fetches o.2 = 0%nat ->
    (fetches o.2 +
     fetches (if ttsEnabled o.1 then checkMonitoredFields o.1 else ret o.1).2 = 0)%nat).
  { intros o ->. destruct (ttsEnabled o.1); [|reflexivity].
    unfold checkMonitoredFields.
    rewrite !andThen_actions, !fetches_app, !checkEventOf_fetches. reflexivity. }
  apply E. case_decide; reflexivity.
Qed.

(** C7 (as amended). However the request ends, it is made once, and the
    socket handler never makes it again.  An empty result puts the text
    "No custom fields found" on the page and populates the add-field
    dropdown, with nothing to offer and the add button disabled.  A failed
    request (no response, a status outside 200..299, a body that is not
    JSON) puts an error text on the page and does nothing else: the
    dropdown is not populated and the state is left as it was. *)
Theorem fetch_outcomes o st :
  let out := loadCustomFields o st in
  fetches out.2 = 1%nat /\
  (forall tag payload st', fetches (onmessage tag payload st').2 = 0%nat) /\
  (fetchedNothing o ->
     out.2 = [FetchCustomFields; SetFieldsContainer NoCustomFieldsFound;
              PopulateAddFieldDropdown ∅ true]) /\
  (fetchFailed o ->
     showsInfoText out.2 /\ ~ populatesDropdown out.2 /\ out.1 = st /\
     exists t, out.2 = [FetchCustomFields; SetFieldsContainer t] /\
       (t = ErrorLoading \/ exists status, t = ErrorLoadingStatus status)).
Proof.
  cbv zeta. split; [|split; [|split]].
  - unfold loadCustomFields. rewrite andThen_actions, fetches_app. simpl.
    destruct o as [|status json body]; [reflexivity|].
    destruct (response_ok status).
    + destruct json as [fields|]; [|reflexivity].
      case_decide.
      * reflexivity.
      * rewrite andThen_actions, fetches_app.
        unfold renderFieldsConfiguration, populateAddFieldDropdown. unfold_outcome.
        repeat case_decide; reflexivity.
    + destruct body; reflexivity.
  - intros. apply onmessage_fetches.
  - destruct o as [|status json body]; [intros []|]. intros [Hok ->].
    unfold loadCustomFields. unfold_outcome. rewrite Hok.
    rewrite decide_True by reflexivity.
    rewrite populateAddFieldDropdown_empty by reflexivity. reflexivity.
  - intros Hfail.
    assert (H :
      exists t, loadCustomFields o st = (st, [FetchCustomFields; SetFieldsContainer t]) /\
        (t = ErrorLoading \/ exists status, t = ErrorLoadingStatus status)).
    { destruct o as [|status json body].
      - exists ErrorLoading. split; [reflexivity|auto].
      - unfold loadCustomFields. unfold_outcome. destruct Hfail as [Hok| ->].
        + rewrite Hok. destruct body.
          * exists (ErrorLoadingStatus status). split; [reflexivity|eauto].
          * exists ErrorLoading. split; [reflexivity|auto].
        + destruct (response_ok status).
          * exists ErrorLoading. split; [reflexivity|auto].
          * destruct body.
            -- exists (ErrorLoadingStatus status). split; [reflexivity|eauto].
            -- exists ErrorLoading. split; [reflexivity|auto]. }
    destruct H as (t & -> & Ht). simpl. repeat split.
    + exists t. split; [right; left; reflexivity|].
      destruct Ht as [->|(status & ->)]; exact I.
    + intros (options & disabled & [H|[H|[]]]); discriminate H.
    + exists t. auto.
Qed.

Lemma fetch_outcomes_witness :
  (loadCustomFields (FetchResponse 404 None (Some (js "Not Found")))
     (freshPage ∅ None)).1 = freshPage ∅ None /\
  (loadCustomFields (FetchResponse 200 (Some ∅) None) (freshPage ∅ None)).2
    = [FetchCustomFields; SetFieldsContainer NoCustomFieldsFound;
       PopulateAddFieldDropdown ∅ true].
Proof.
  split.
  - refine (proj1 (proj2 (proj2 (proj2 (proj2 (proj2
      (fetch_outcomes (FetchResponse 404 None (Some (js "Not Found")))
         (freshPage ∅ None)))) _)))).
    left. reflexivity.
  - refine (proj1 (proj2 (proj2
      (fetch_outcomes (FetchResponse 200 (Some ∅) None) (freshPage ∅ None)))) _).
    split; reflexivity.
Defined.

(** C7, the claim as written, fails when the request fails: after a network
    error, and after a response with status 500, the error text is shown
    but the add-field dropdown is not populated. *)
Lemma failed_fetch_does_not_populate :
  (fetchFailed FetchRejects /\
   showsInfoText (loadCustomFields FetchRejects (freshPage ∅ None)).2 /\
   ~ populatesDropdown (loadCustomFields FetchRejects (freshPage ∅ None)).2) /\
  (fetchFailed (FetchResponse 500 None (Some [])) /\
   ~ populatesDropdown
       (loadCustomFields (FetchResponse 500 None (Some [])) (freshPage ∅ None)).2).
Proof.
  split; [split; [exact I|split]|split; [left; reflexivity|]].
  - exists ErrorLoading. split; [right; left; reflexivity|exact I].
  - intros (options & disabled & [H|[H|[]]]); discriminate H.
  - intros (options & disabled & [H|[H|[]]]); discriminate H.
Qed.

(** ** Claims on the configuration handlers *)

Lemma dec_value_snoc w d : dec_value (w ++ [d]) = 10 * dec_value w + (Z.of_N d - 48).
Proof. unfold dec_value. rewrite fold_left_app. reflexivity. Qed.

Lemma log2_tenth n : (n / 10 <> 0 -> N.log2 (n / 10) < N.log2 n)%N.
Proof.
  intros Hq.
  pose proof (N.div_mod n 10 ltac:(discriminate)) as Hdm.
  pose proof (N.log2_double (n / 10) (proj1 (N.neq_0_lt_0 _) Hq)) as Hd.
  assert (Hle : (2 * (n / 10) <= n)%N).
  { revert Hdm. generalize (n / 10)%N (n mod 10)%N. intros q r ->. lia. }
  apply N.log2_le_mono in Hle. rewrite Hd in Hle. lia.
Qed.

Lemma tenth_parts n :
  exists q r, (n / 10 = q /\ n mod 10 = r /\ n = 10 * q + r /\ r < 10)%N.
Proof.
  exists (n / 10)%N, (n mod 10)%N. repeat split.
  - apply N.div_mod. discriminate.
  - apply N.mod_lt. discriminate.
Qed.

Lemma dec_digits_spec fuel : forall n acc,
  (N.to_nat (N.log2 n) < fuel)%nat ->
  exists w, dec_digits fuel n acc = w ++ acc /\ all_digits w /\ w <> [] /\
            dec_value w = Z.of_N n.
Proof.
  induction fuel as [|fuel IH]; intros n acc Hf; [lia|].
  pose proof (log2_tenth n) as Hlog.
  destruct (tenth_parts n) as (q & r & Hq & Hr & Hn & Hlt).
  cbn [dec_digits]. rewrite Hq, Hr in *.
  assert (Hd : is_digit (48 + r) = true).
  { unfold is_digit. rewrite andb_true_iff, !N.leb_le. lia. }
  destruct (q =? 0)%N eqn:E.
  - apply N.eqb_eq in E. exists [(48 + r)%N]. repeat split.
    + constructor; [exact Hd|constructor].
    + discriminate.
    + unfold dec_value. simpl. lia.
  - apply N.eqb_neq in E. specialize (Hlog E).
    destruct (IH q ((48 + r)%N :: acc) ltac:(lia)) as (w & Hw & Hall & Hne & Hval).
    exists (w ++ [(48 + r)%N]). repeat split.
    + rewrite Hw, <- app_assoc. reflexivity.
    + apply Forall_app. split; [exact Hall|]. constructor; [exact Hd|constructor].
    + destruct w; discriminate.
    + rewrite dec_value_snoc, Hval. lia.
Qed.

(** Reading back the decimal digits of a number gives the number. *)
Lemma parseInt10_N_to_string n : parseInt10 (N_to_string n) = Num (Z.of_N n).
Proof.
  unfold N_to_string.
  destruct (dec_digits_spec (S (N.to_nat (N.log2 n))) n [] ltac:(lia))
    as (w & Hw & Hall & Hne & Hval).
  rewrite Hw, app_nil_r, parseInt10_digits by assumption. rewrite Hval. reflexivity.
Qed.

Lemma saved_monitoredFields st : monitoredFields (saveConfiguration st) = monitoredFields st.
Proof. reflexivity. Qed.

(** C9, as the code has it. A number [n] below 2^53 typed into the
    threshold input is stored as [n] when [n] is positive, and as 10 when
    [n] is 0: [parseInt(value, 10) || 10] takes 0 for a missing value. *)
Theorem threshold_zero_is_replaced fieldKey st :
  (forall n : N, (n < 2 ^ 53)%N ->
     monitoredFields (onThresholdChange fieldKey (N_to_string n) st) !! fieldKey =
       Some {| enabled := enabled (configOrDefault st fieldKey);
               threshold := if (n =? 0)%N then 10 else Z.of_N n;
               voice := voice (configOrDefault st fieldKey);
               language := language (configOrDefault st fieldKey) |}) /\
  threshold <$> monitoredFields (onThresholdChange fieldKey (js "0") st) !! fieldKey
    = Some 10.
Proof.
  assert (H : forall n : N,
     monitoredFields (onThresholdChange fieldKey (N_to_string n) st) !! fieldKey =
       Some {| enabled := enabled (configOrDefault st fieldKey);
               threshold := if (n =? 0)%N then 10 else Z.of_N n;
               voice := voice (configOrDefault st fieldKey);
               language := language (configOrDefault st fieldKey) |}).
  { intros n. unfold onThresholdChange. rewrite saved_monitoredFields. simpl.
    rewrite lookup_insert_eq, parseInt10_N_to_string. unfold num_or.
    destruct n; reflexivity. }
  split; [intros n _; apply H|].
  change (js "0") with (N_to_string 0). rewrite H. reflexivity.
Qed.

Lemma threshold_zero_is_replaced_witness :
  threshold <$> monitoredFields (onThresholdChange (js "timer") (js "5") sampleState)
                  !! js "timer" = Some 5 /\
  threshold <$> monitoredFields (onThresholdChange (js "timer") (js "0") sampleState)
                  !! js "timer" = Some 10.
Proof.
  split.
  - change (js "5") with (N_to_string 5).
    rewrite (proj1 (threshold_zero_is_replaced (js "timer") sampleState) 5%N);
      [reflexivity|vm_compute; reflexivity].
  - exact (proj2 (threshold_zero_is_replaced (js "timer") sampleState)).
Defined.

(** ** Removing and adding a field *)

Lemma onRemoveField_state fieldKey st :
  (onRemoveField fieldKey st).1 =
    saveConfiguration
      (set_previousValues (delete fieldKey (previousValues st))
         (set_monitoredFields (delete fieldKey (monitoredFields st)) st)).
Proof.
  unfold onRemoveField. rewrite andThen_state, renderFieldsConfiguration_state.
  reflexivity.
Qed.

Lemma onAddField_state fieldKey st :
  fieldKey <> [] -> catalogHas (customFields st) fieldKey ->
  (onAddField fieldKey st).1 =
    saveConfiguration
      (set_monitoredFields (<[fieldKey := defaultConfig true]> (monitoredFields st)) st).
Proof.
  intros Hne Hf. unfold onAddField.
  destruct fieldKey as [|c k]; [congruence|]. rewrite decide_True by exact Hf.
  rewrite !andThen_state, renderFieldsConfiguration_state. reflexivity.
Qed.

(** C10. As the code has it: removing a field deletes its configuration
    and, of the cache, exactly the entry stored under the bare field key.
    The entries of the removed field are stored under composite keys, which
    differ from its bare key, and stay.  So when the field is added again, a
    value the cache already holds for it is no change: nothing is logged or
    spoken and the state stays as it is. *)
Theorem removal_keeps_cache fieldKey st :
  let removed := (onRemoveField fieldKey st).1 in
  monitoredFields removed !! fieldKey = None /\
  previousValues removed = delete fieldKey (previousValues st) /\
  (forall eventId,
     previousValues removed !! uniqueKey eventId fieldKey =
       previousValues st !! uniqueKey eventId fieldKey) /\
  (forall eventId v,
     previousValues st !! uniqueKey eventId fieldKey = Some v ->
     fieldKey <> [] -> catalogHas (customFields st) fieldKey ->
     let added := (onAddField fieldKey removed).1 in
     monitoredFields added !! fieldKey = Some (defaultConfig true) /\
     checkField eventId added (fieldKey, v) = (added, [])).
Proof.
  cbv zeta. rewrite onRemoveField_state.
  split; [apply lookup_delete_eq|]. split; [reflexivity|]. split.
  - intros eventId. simpl. apply lookup_delete_ne.
    intros E. exact (uniqueKey_not_bare eventId fieldKey (eq_sym E)).
  - intros eventId v Hv Hne Hcat.
    rewrite onAddField_state by assumption. split.
    + simpl. apply lookup_insert_eq.
    + apply checkField_settled. unfold settled. simpl.
      rewrite lookup_insert_eq. right.
      rewrite lookup_delete_ne; [exact Hv|].
      intros E. exact (uniqueKey_not_bare eventId fieldKey (eq_sym E)).
Qed.

Lemma removal_keeps_cache_witness :
  let removed := (onRemoveField (js "timer") sampleDelivered).1 in
  let added := (onAddField (js "timer") removed).1 in
  previousValues removed !! uniqueKey (js "ev1") (js "timer") = Some (JStr (js "00:10")) /\
  checkField (js "ev1") added (js "timer", JStr (js "00:10")) = (added, []).
Proof.
  cbv zeta. split.
  - rewrite (proj1 (proj2 (proj2 (removal_keeps_cache (js "timer") sampleDelivered)))).
    vm_compute. reflexivity.
  - refine (proj2 (proj2 (proj2 (proj2 (removal_keeps_cache (js "timer") sampleDelivered)))
                     (js "ev1") (JStr (js "00:10")) _ _ _)).
    + vm_compute. reflexivity.
    + vm_compute. congruence.
    + left. vm_compute. eauto.
Defined.

(** The bare key of a removed field can be the composite key of another
    field: on the page [sampleColliding] the fields "timer" and "ev1-timer"
    are monitored and the event "ev1" has delivered "00:10" for "timer",
    cached under "ev1-timer".  Removing the field "ev1-timer" deletes that
    entry, and the unchanged value of "timer" is announced again. *)
Lemma removal_clears_other_field :
  let values := [(js "timer", JStr (js "00:10"))] in
  let delivered := (checkEventFields values (js "current") sampleColliding).1 in
  let removed := (onRemoveField (js "ev1-timer") delivered).1 in
  uniqueKey (js "ev1") (js "timer") = js "ev1-timer" /\
  previousValues delivered !! uniqueKey (js "ev1") (js "timer")
    = Some (JStr (js "00:10")) /\
  checkEventFields values (js "current") delivered = (delivered, []) /\
  monitoredFields removed !! js "timer" = Some (sampleConfig 10) /\
  previousValues removed !! uniqueKey (js "ev1") (js "timer") = None /\
  speakCalls (checkEventFields values (js "current") removed).2
    = [sampleRequest 10].
Proof.
  cbv zeta. split; [reflexivity|]. split; [vm_compute; reflexivity|].
  split; [vm_compute; reflexivity|]. split; [vm_compute; reflexivity|].
  split; vm_compute; reflexivity.
Qed.

(** * Further properties *)

(** ** The parser *)

Lemma digit_bounds c : is_digit c = true -> 48 <= Z.of_N c <= 57.
Proof. intros H. apply digit_cases in H. lia. Qed.

Lemma dec_value_two w :
  all_digits w -> (length w <= 2)%nat -> 0 <= dec_value w <= 99.
Proof.
  intros Hall Hlen. destruct w as [|a [|b [|c w]]]; simpl in Hlen; try lia.
  - unfold dec_value. simpl. lia.
  - apply all_digits_cons in Hall as [Ha _]. apply digit_bounds in Ha.
    unfold dec_value. simpl. lia.
  - apply all_digits_cons in Hall as [Ha Hall]. apply all_digits_cons in Hall as [Hb _].
    apply digit_bounds in Ha. apply digit_bounds in Hb.
    unfold dec_value. simpl. lia.
Qed.

(** A result other than [null] comes from one of the two shapes. *)
Lemma parse_result_shape v n :
  parseTimeToSeconds v = Some n ->
  exists str, v = JStr str /\
    ((exists h m sec, is_hms (trim str) h m sec /\
        n = Num (dec_value h * 3600 + dec_value m * 60 + dec_value sec)) \/
     (exists m sec, is_ms (trim str) m sec /\
        n = Num (dec_value m * 60 + dec_value sec))).
Proof.
  intros H. destruct v as [| | |str|]; try discriminate H.
  exists str. split; [reflexivity|].
  destruct str as [|c str]; [discriminate H|].
  destruct (regex_match timePattern (trim (c :: str))) as [m|] eqn:E.
  - apply regex_match_shape in E as [(h & mi & sec & Hs & _)|(mi & sec & Hs & _)].
    + rewrite (parse_hms _ _ _ _ Hs) in H. injection H as <-. left. eauto.
    + rewrite (parse_ms _ _ _ Hs) in H. injection H as <-. right. eauto.
  - unfold parseTimeToSeconds in H. rewrite E in H. discriminate H.
Qed.

Lemma parse_result_nonneg v n :
  parseTimeToSeconds v = Some n -> exists s, n = Num s /\ 0 <= s.
Proof.
  intros H. apply parse_result_shape in H as (str & _ & [(h & m & sec & Hs & ->)|(m & sec & Hs & ->)]).
  - destruct Hs as (_ & Hh & Lh & Hm & Lm & Hsec & Ls).
    pose proof (dec_value_two h Hh ltac:(lia)).
    pose proof (dec_value_two m Hm ltac:(lia)).
    pose proof (dec_value_two sec Hsec ltac:(lia)).
    eexists. split; [reflexivity|lia].
  - destruct Hs as (_ & Hm & Lm & Hsec & Ls).
    pose proof (dec_value_two m Hm ltac:(lia)).
    pose proof (dec_value_two sec Hsec ltac:(lia)).
    eexists. split; [reflexivity|lia].
Qed.

(** X1. Whatever [parseTimeToSeconds] returns other than [null] is a whole
    number of seconds from 0 to 99*3600 + 99*60 + 99; it is never [NaN] and
    never negative. *)
Theorem parseTimeToSeconds_bounds v n :
  parseTimeToSeconds v = Some n ->
  exists s, n = Num s /\ 0 <= s <= 362439.
Proof.
  intros H.
  apply parse_result_shape in H
    as (str & _ & [(h & m & sec & Hs & ->)|(m & sec & Hs & ->)]).
  - destruct Hs as (_ & Hh & Lh & Hm & Lm & Hsec & Ls).
    pose proof (dec_value_two h Hh ltac:(lia)).
    pose proof (dec_value_two m Hm ltac:(lia)).
    pose proof (dec_value_two sec Hsec ltac:(lia)).
    eexists. split; [reflexivity|lia].
  - destruct Hs as (_ & Hm & Lm & Hsec & Ls).
    pose proof (dec_value_two m Hm ltac:(lia)).
    pose proof (dec_value_two sec Hsec ltac:(lia)).
    eexists. split; [reflexivity|lia].
Qed.

Lemma parseTimeToSeconds_bounds_witness :
  exists s, Num 3723 = Num s /\ 0 <= s <= 362439.
Proof.
  apply (parseTimeToSeconds_bounds (JStr (js " 1:02:03 ")) (Num 3723)).
  vm_compute. reflexivity.
Defined.

Lemma parse_via_trim s : parseTimeToSeconds (JStr s) = parseTrimmed (trim s).
Proof. destruct s; reflexivity. Qed.

Lemma trimStart_ws_app pre s : all_ws pre -> trimStart (pre ++ s) = trimStart s.
Proof.
  induction 1 as [|c pre Hc _ IH]; [reflexivity|]. simpl. rewrite Hc. exact IH.
Qed.

Lemma trimStart_all_ws s : all_ws s -> trimStart s = [].
Proof.
  intros H. rewrite <- (app_nil_r s). rewrite trimStart_ws_app by exact H. reflexivity.
Qed.

Lemma trimStart_nil s : trimStart s = [] -> all_ws s.
Proof.
  induction s as [|c s IH]; intros H; [constructor|].
  simpl in H. destruct (is_ws c) eqn:E; [|discriminate H].
  constructor; [exact E|apply IH, H].
Qed.

Lemma trimStart_app s t : trimStart s <> [] -> trimStart (s ++ t) = trimStart s ++ t.
Proof.
  induction s as [|c s IH]; intros H; [destruct H; reflexivity|].
  simpl in *. destruct (is_ws c); [apply IH, H|reflexivity].
Qed.

Lemma trimEnd_ws_app s post : all_ws post -> trimEnd (s ++ post) = trimEnd s.
Proof.
  intros H. unfold trimEnd. rewrite rev_app_distr, trimStart_ws_app; [reflexivity|].
  apply Forall_rev. exact H.
Qed.

Lemma trim_ws_around pre s post :
  all_ws pre -> all_ws post -> trim (pre ++ s ++ post) = trim s.
Proof.
  intros Hpre Hpost. unfold trim. rewrite trimStart_ws_app by exact Hpre.
  destruct (trimStart s) as [|c t] eqn:E.
  - rewrite trimStart_all_ws; [reflexivity|].
    apply Forall_app. split; [apply trimStart_nil, E|exact Hpost].
  - rewrite trimStart_app by congruence. rewrite E.
    apply trimEnd_ws_app. exact Hpost.
Qed.

(** X2. White space around a value does not change what the parser makes
    of it: the value with any white space before and after it parses to the
    same result, or fails the same way. *)
Theorem parseTimeToSeconds_ignores_margin pre s post :
  all_ws pre -> all_ws post ->
  parseTimeToSeconds (JStr (pre ++ s ++ post)) = parseTimeToSeconds (JStr s).
Proof.
  intros Hpre Hpost. rewrite !parse_via_trim, trim_ws_around by assumption.
  reflexivity.
Qed.

Lemma parseTimeToSeconds_ignores_margin_witness :
  parseTimeToSeconds (JStr (js " " ++ js "01:30" ++ js "  ")) = Some (Num 90).
Proof.
  rewrite (parseTimeToSeconds_ignores_margin (js " ") (js "01:30") (js "  ")).
  - vm_compute. reflexivity.
  - repeat constructor.
  - repeat constructor.
Defined.

(** ** The monitoring engine and the configuration handlers *)




(** X4. A value is taken as seen even when it is above the threshold: if
    the threshold is changed afterwards, to whatever input, the same value
    delivered again does nothing, until the value itself changes. *)
Theorem raised_threshold_stays_silent eventId st k config v input :
  monitoredFields st !! k = Some config ->
  enabled config = true ->
  let st1 := (checkField eventId st (k, v)).1 in
  let st2 := onThresholdChange k input st1 in
  checkField eventId st2 (k, v) = (st2, []).
Proof.
  intros Hm He. cbv zeta. apply checkField_settled.
  pose proof (checkField_makes_settled eventId st k v) as Hs.
  destruct (checkField_frame eventId st k v) as (_ & _ & Hmon & _).
  unfold settled in *. rewrite Hmon, Hm in Hs.
  destruct Hs as [Hs|Hs]; [congruence|].
  unfold onThresholdChange. simpl. rewrite lookup_insert_eq. right. exact Hs.
Qed.

Lemma raised_threshold_stays_silent_witness :
  let st1 := (checkField (js "ev1") sampleState (js "timer", JStr (js "00:30"))).1 in
  let st2 := onThresholdChange (js "timer") (js "60") st1 in
  speakCalls (checkField (js "ev1") sampleState (js "timer", JStr (js "00:30"))).2 = [] /\
  threshold <$> monitoredFields st2 !! js "timer" = Some 60 /\
  checkField (js "ev1") st2 (js "timer", JStr (js "00:30")) = (st2, []).
Proof.
  cbv zeta. split; [vm_compute; reflexivity|]. split; [vm_compute; reflexivity|].
  apply (raised_threshold_stays_silent (js "ev1") sampleState (js "timer")
           (sampleConfig 10)); vm_compute; reflexivity.
Defined.

Lemma eventIdFor_with_id role slot st e c s :
  slot = (if decide (role = js "current") then js "eventNow" else js "eventNext") ->
  localData st !! slot = Some (RVEvent e) -> id e = Some (c :: s) ->
  eventIdFor role st = c :: s.
Proof.
  intros -> Hl Hid. unfold eventIdFor, eventIdOf.
  destruct (decide (role = js "current")); rewrite Hl, Hid; reflexivity.
Qed.

Lemma forEach_monitoredFields eventId l : forall st,
  monitoredFields (forEach (checkField eventId) l st).1 = monitoredFields st.
Proof.
  induction l as [|[k v] l IH]; intros st; [reflexivity|].
  rewrite forEach_cons, IH.
  destruct (checkField_frame eventId st k v) as (_ & _ & H & _). exact H.
Qed.

Lemma settled_ext eventId st st' k v :
  monitoredFields st' = monitoredFields st ->
  previousValues st' = previousValues st ->
  settled eventId st k v -> settled eventId st' k v.
Proof. unfold settled. intros -> ->. auto. Qed.

(** X5. The cache key of an event that has an id does not depend on its
    role: values the engine has seen while the event was the next one are
    not taken as changes when the same event, with the same values, becomes
    the current one. *)
Theorem next_becomes_current st e c s customValues :
  localData st !! js "eventNext" = Some (RVEvent e) ->
  id e = Some (c :: s) ->
  List.NoDup (List.map fst customValues) ->
  let st1 := (checkEventFields customValues (js "next") st).1 in
  let st2 := set_localData (<[js "eventNow" := RVEvent e]> (localData st1)) st1 in
  checkEventFields customValues (js "current") st2 = (st2, []).
Proof.
  intros Hnext Hid Hnd. cbv zeta. unfold checkEventFields.
  rewrite (eventIdFor_with_id (js "next") (js "eventNext") st e c s);
    [|reflexivity|exact Hnext|exact Hid].
  erewrite (eventIdFor_with_id (js "current") (js "eventNow") _ e c s);
    [|reflexivity|simpl; apply lookup_insert_eq|exact Hid].
  apply forEach_settled. intros k v Hin.
  eapply settled_ext; [| |apply forEach_makes_settled; eassumption]; reflexivity.
Qed.

Lemma next_becomes_current_witness :
  let st := set_localData {[ js "eventNext" := RVEvent (sampleEvent (JStr (js "00:10"))) ]}
              sampleState in
  let st1 := (checkEventFields [(js "timer", JStr (js "00:10"))] (js "next") st).1 in
  let st2 := set_localData (<[js "eventNow" := RVEvent (sampleEvent (JStr (js "00:10")))]>
                              (localData st1)) st1 in
  speakCalls (checkEventFields [(js "timer", JStr (js "00:10"))] (js "next") st).2
    = [sampleRequest 10] /\
  checkEventFields [(js "timer", JStr (js "00:10"))] (js "current") st2 = (st2, []).
Proof.
  cbv zeta. split; [vm_compute; reflexivity|].
  apply (next_becomes_current _ (sampleEvent (JStr (js "00:10"))) 101%N (js "v1")).
  - vm_compute. reflexivity.
  - vm_compute. reflexivity.
  - simpl. repeat constructor. intros [].
Defined.

(** ** The monitoring list *)

(** When a changed value of an enabled field makes the engine call
    [speakValue]. *)
Lemma checkField_calls_iff eventId st k v config :
  monitoredFields st !! k = Some config -> enabled config = true ->
  previousValues st !! uniqueKey eventId k <> Some v ->
  (speakCalls (checkField eventId st (k, v)).2 <> [] <->
   exists s, parseTimeToSeconds v = Some (Num s) /\ s <= threshold config).
Proof.
  intros Hm He Hc.
  destruct (parseTimeToSeconds v) as [n|] eqn:Hp.
  - destruct (parse_result_nonneg _ _ Hp) as (s & -> & _).
    destruct (parse_result_shape _ _ Hp) as (str & -> & _).
    rewrite (checkField_parsed _ _ _ _ _ _ Hm He Hc Hp).
    destruct (Z.ltb_spec (threshold config) s); simpl; split.
    + intros H'. congruence.
    + intros (s' & [= <-] & Hle). lia.
    + intros _. eauto.
    + intros _. discriminate.
  - split; [|intros (s & H' & _); discriminate H'].
    intros H. exfalso. apply H. unfold checkField. rewrite Hm, He. simpl negb. cbv iota.
    rewrite decide_False by exact Hc. unfold_outcome.
    destruct v as [| | |[|c str]|]; try reflexivity. rewrite Hp. reflexivity.
Qed.

Lemma truthy_of_parsed v n : parseTimeToSeconds v = Some n -> truthy v = true.
Proof. destruct v as [| | |[|c s]|]; try discriminate; reflexivity. Qed.

(** X6. The monitoring list agrees with the engine on the current event:
    the item of an enabled field that has a definition is marked active
    exactly when a change to the value the current event holds for it would
    make the engine call [speakValue]. *)
Theorem monitoring_list_matches_trigger st k config field e l v :
  monitoredFields st !! k = Some config -> enabled config = true ->
  customFields st !! k = Some field ->
  localData st !! js "eventNow" = Some (RVEvent e) -> custom e = Some l ->
  entryOf l k = Some v ->
  previousValues st !! uniqueKey (eventIdFor (js "current") st) k <> Some v ->
  exists items item,
    updateMonitoringDisplay st = MonitoringItems items /\
    items !! k = Some item /\
    (item_active item = true <->
     speakCalls (checkField (eventIdFor (js "current") st) st (k, v)).2 <> []).
Proof.
  intros Hm He Hf Hnow Hcus Hent Hc.
  pose proof (checkField_calls_iff _ _ _ _ _ Hm He Hc) as Hiff.
  assert (Hen : filter (fun kc => enabled kc.2 = true) (monitoredFields st) !! k
                = Some config).
  { apply map_lookup_filter_Some. auto. }
  unfold updateMonitoringDisplay. rewrite decide_False.
  2: { intros E. rewrite E, lookup_empty in Hen. discriminate Hen. }
  eexists _, _. split; [reflexivity|]. split.
  { rewrite map_lookup_imap, Hen. simpl. unfold monitoringItem, fieldLabel. rewrite Hf.
    reflexivity. }
  rewrite Hiff. clear Hiff.
  unfold customValueOf. rewrite Hnow, Hcus, Hent.
  destruct (truthy v) eqn:T.
  - simpl. destruct (parseTimeToSeconds v) as [n|] eqn:Hp.
    + destruct (parse_result_nonneg _ _ Hp) as (s & -> & _). simpl.
      rewrite Z.leb_le. split; [eauto|]. intros (s' & [= <-] & Hle). exact Hle.
    + split; [discriminate|]. intros (s & H' & _). discriminate H'.
  - simpl. split; [discriminate|]. intros (s & Hp & _).
    apply truthy_of_parsed in Hp. congruence.
Qed.

Lemma monitoring_list_matches_trigger_witness :
  exists items item,
    updateMonitoringDisplay sampleState = MonitoringItems items /\
    items !! js "timer" = Some item /\
    (item_active item = true <->
     speakCalls (checkField (eventIdFor (js "current") sampleState) sampleState
                   (js "timer", JStr (js "00:10"))).2 <> []).
Proof.
  apply (monitoring_list_matches_trigger sampleState (js "timer") (sampleConfig 10)
           {| label := js "Timer"; ftype := js "text"; colour := js "red" |}
           (sampleEvent (JStr (js "00:10"))) [(js "timer", JStr (js "00:10"))]);
    vm_compute; congruence.
Defined.

(** ** The speech dispatcher *)

Lemma run_events_app evs1 evs2 s :
  run_events (evs1 ++ evs2) s = run_events evs2 (run_events evs1 s).
Proof. unfold run_events. apply fold_left_app. Qed.

Lemma triggers_wait rqs : forall s,
  available s = true -> isSpeaking s = false -> queue s = [] ->
  run_events (List.map Trigger rqs) s = set_timers (timers s ++ rqs) s.
Proof.
  induction rqs as [|rq rqs IH]; intros s Ha Hg Hq.
  - simpl. rewrite app_nil_r. destruct s; reflexivity.
  - change (run_events (List.map Trigger (rq :: rqs)) s)
      with (run_events (List.map Trigger rqs) (speakValue rq s)).
    assert (E : speakValue rq s = set_timers (timers s ++ [rq]) s).
    { unfold speakValue. rewrite Ha, Hg, Hq. reflexivity. }
    rewrite E, IH by assumption. simpl. rewrite <- app_assoc. reflexivity.
Qed.

Lemma late_timers_give_up fires : forall s,
  isSpeaking s = true -> length (timers s) = length fires ->
  run_events (List.map fire fires) s = set_timers [] s.
Proof.
  induction fires as [|[throws now] fires IH]; intros s Hg Hlen.
  - destruct s as [a v g t q c]. simpl in *. destruct t; [reflexivity|discriminate].
  - change (run_events (List.map fire ((throws, now) :: fires)) s)
      with (run_events (List.map fire fires) (timerCallback throws now s)).
    rewrite timerCallback_dropped by exact Hg.
    rewrite IH; [reflexivity|exact Hg|].
    simpl. destruct (timers s); simpl in *; lia.
Qed.

(** Timer callbacks running one after the other on an idle engine. *)
Lemma timers_fire fires : forall s,
  isSpeaking s = false -> queue s = [] -> length (timers s) = length fires ->
  run_events (List.map fire fires) s =
    match firstSpoken (voices s) (timers s) fires with
    | Some utterance => set_queue [utterance] (set_isSpeaking true (set_timers [] s))
    | None => set_timers [] s
    end.
Proof.
  induction fires as [|[throws now] fires IH]; intros s Hg Hq Hlen.
  - destruct s as [a v g t q c]. simpl in *. destruct t; [reflexivity|discriminate].
  - destruct s as [a v g t q c]. simpl in Hg, Hq, Hlen. subst g q.
    destruct t as [|rq waiting]; [discriminate|]. injection Hlen as Hlen.
    change (run_events (List.map fire ((throws, now) :: fires)) ?s0)
      with (run_events (List.map fire fires) (timerCallback throws now s0)).
    destruct throws.
    + cbn [firstSpoken voices timers].
      change (timerCallback true now
                {| available := a; voices := v; isSpeaking := false;
                   timers := rq :: waiting; queue := []; cancelled := c |})
        with {| available := a; voices := v; isSpeaking := false;
                timers := waiting; queue := []; cancelled := c |}.
      rewrite IH by (try reflexivity; exact Hlen). reflexivity.
    + cbn [firstSpoken voices timers].
      change (timerCallback false now
                {| available := a; voices := v; isSpeaking := false;
                   timers := rq :: waiting; queue := []; cancelled := c |})
        with {| available := a; voices := v; isSpeaking := true;
                timers := waiting; queue := [mkUtterance v (asRead now rq)];
                cancelled := c |}.
      rewrite late_timers_give_up by (try reflexivity; exact Hlen). reflexivity.
Qed.

(** X7. Of the requests made while the engine is idle and before the first
    timer fires, at most one is spoken, provided their timer callbacks then
    run one after the other with nothing in between (no utterance ends or
    fails, TTS is not switched off): the utterance the engine then holds is
    that of the first request whose [speak] does not raise, in the language
    and voice its config object holds when the callback runs; every later
    request is dropped; if every [speak] raises, nothing is spoken.  In
    particular the first request is the one spoken when its [speak] does not
    raise.  Nothing is left waiting. *)
Theorem one_request_is_spoken s rq rqs fires :
  available s = true -> isSpeaking s = false -> timers s = [] -> queue s = [] ->
  length fires = S (length rqs) ->
  run_events (List.map Trigger (rq :: rqs) ++ List.map fire fires) s
  = match firstSpoken (voices s) (rq :: rqs) fires with
    | Some utterance =>
        {| available := true; voices := voices s; isSpeaking := true;
           timers := []; queue := [utterance]; cancelled := cancelled s |}
    | None =>
        {| available := true; voices := voices s; isSpeaking := false;
           timers := []; queue := []; cancelled := cancelled s |}
    end /\
  (forall now rest, fires = (false, now) :: rest ->
     firstSpoken (voices s) (rq :: rqs) fires
     = Some (mkUtterance (voices s) (asRead now rq))).
Proof.
  intros Ha Hg Ht Hq Hlen. split.
  - rewrite run_events_app, triggers_wait by assumption.
    rewrite Ht. cbn [app].
    rewrite timers_fire; [| exact Hg | exact Hq | simpl; lia].
    cbn [voices set_timers timers].
    destruct s as [a v g t q c]. simpl in *. subst.
    destruct (firstSpoken v (rq :: rqs) fires); reflexivity.
  - intros now rest ->. reflexivity.
Qed.

Lemma one_request_is_spoken_witness :
  queue (run_events [Trigger (sampleRequest 10); Trigger (sampleRequest 9);
                     Trigger (sampleRequest 8);
                     TimerFires true (sampleConfig 10);
                     TimerFires false (sampleConfig 10);
                     TimerFires false (sampleConfig 10)]
                    (initialSpeech true []))
  = [mkUtterance [] (sampleRequest 9)].
Proof.
  exact (f_equal queue
           (proj1 (one_request_is_spoken (initialSpeech true []) (sampleRequest 10)
                     [sampleRequest 9; sampleRequest 8]
                     [(true, sampleConfig 10); (false, sampleConfig 10);
                      (false, sampleConfig 10)]
                     eq_refl eq_refl eq_refl eq_refl eq_refl))).
Defined.

(** X8. As long as TTS has not been switched off, a call of [speakValue]
    never touches the engine or the flag: its [cancel] finds nothing to
    cancel, and all it can do is leave one more callback waiting.  (After a
    switch-off this is no longer so: the late report of the cancelled
    utterance can clear the flag while the engine holds an utterance, which
    the next call then cancels.) *)
Theorem speakValue_only_schedules s rq :
  reachable_on s ->
  queue (speakValue rq s) = queue s /\
  isSpeaking (speakValue rq s) = isSpeaking s /\
  cancelled (speakValue rq s) = cancelled s /\
  (speakValue rq s = s \/ speakValue rq s = set_timers (timers s ++ [rq]) s).
Proof.
  intros Hr. destruct (reachable_on_gate_inv s Hr) as (_ & Hfree & _).
  unfold speakValue. destruct (available s); [|auto].
  destruct (isSpeaking s) eqn:G; [auto|]. simpl.
  rewrite (Hfree eq_refl). simpl. rewrite (Hfree eq_refl). auto.
Qed.

Lemma speakValue_only_schedules_witness :
  let s := run_events [Trigger (sampleRequest 10); TimerFires false (sampleConfig 10)]
                      (initialSpeech true []) in
  queue (speakValue (sampleRequest 9) s) = queue s.
Proof.
  cbv zeta.
  apply (speakValue_only_schedules _ (sampleRequest 9)).
  apply reachable_on_run_events; [|apply on_init].
  repeat constructor; discriminate.
Defined.

(** X9. Without a speech engine nothing ever happens: however many requests
    and events arrive, no callback waits, nothing is spoken and the flag
    stays clear. *)
Theorem no_engine_no_speech s :
  reachable s -> available s = false ->
  isSpeaking s = false /\ timers s = [] /\ queue s = [].
Proof.
  induction 1 as [avail vs|s ev s' Hr IH Hstep]; intros Ha.
  - simpl. auto.
  - destruct Hstep as [s rq|s throws now Ht|s i Hi|s i Hi|s i Hi|s].
    + unfold speakValue in *. destruct (available s) eqn:A.
      * simpl in Ha. destruct (isSpeaking s); [congruence|].
        destruct (queue s); simpl in Ha; congruence.
      * auto.
    + assert (A : available s = false).
      { unfold timerCallback in Ha. destruct (timers s); [exact Ha|].
        simpl in Ha. destruct (isSpeaking s); [exact Ha|].
        destruct throws; exact Ha. }
      destruct (IH A) as (_ & T & _). congruence.
    + destruct (IH Ha) as (_ & _ & Q). rewrite Q in Hi. simpl in Hi. lia.
    + destruct (IH Ha) as (_ & _ & Q). rewrite Q in Hi. simpl in Hi. lia.
    + destruct (IH Ha) as (_ & T & Q). simpl. auto.
    + assert (A : available s = false).
      { unfold onTtsDisabled in Ha. destruct (available s) eqn:A'; simpl in Ha; congruence. }
      destruct (IH A) as (G & T & Q).
      unfold onTtsDisabled. rewrite A. simpl. auto.
Qed.

Lemma no_engine_no_speech_witness :
  let s := run_events [Trigger (sampleRequest 10); TimerFires false (sampleConfig 10);
                       TtsSwitchedOff; Trigger (sampleRequest 9)]
                      (initialSpeech false []) in
  isSpeaking s = false /\ timers s = [] /\ queue s = [].
Proof.
  cbv zeta. apply no_engine_no_speech.
  - apply reachable_run_events, reach_init.
  - vm_compute. reflexivity.
Defined.

(** ** Voices *)

Lemma findVoice_Some vs name v :
  findVoice vs name = Some v ->
  In v vs /\ (voiceURI v = name \/ vname v = name).
Proof.
  unfold findVoice. intros H. apply find_some in H as [Hin Hb].
  split; [exact Hin|]. apply orb_true_iff in Hb as [Hb|Hb];
    apply bool_decide_eq_true in Hb; auto.
Qed.

Lemma findVoice_found vs name v :
  In v vs -> voiceURI v = name \/ vname v = name -> findVoice vs name <> None.
Proof.
  unfold findVoice. intros Hin Hm Hnone.
  pose proof (find_none _ _ Hnone v Hin) as Hb. simpl in Hb.
  apply orb_false_iff in Hb as [H1 H2].
  apply bool_decide_eq_false in H1. apply bool_decide_eq_false in H2.
  destruct Hm; contradiction.
Qed.

(** X10. The voice of an utterance: none when the field has no voice
    configured; otherwise a voice of the engine whose identifier or name is
    the configured one, and there is one bound whenever the engine has such
    a voice. *)
Theorem utterance_voice vs rq :
  (voice (rq_config rq) = [] -> uvoice (mkUtterance vs rq) = None) /\
  (forall v, uvoice (mkUtterance vs rq) = Some v ->
     In v vs /\ voice (rq_config rq) <> [] /\
     (voiceURI v = voice (rq_config rq) \/ vname v = voice (rq_config rq))) /\
  (forall v, voice (rq_config rq) <> [] -> In v vs ->
     voiceURI v = voice (rq_config rq) \/ vname v = voice (rq_config rq) ->
     uvoice (mkUtterance vs rq) <> None).
Proof.
  unfold mkUtterance. cbn [uvoice].
  destruct (voice (rq_config rq)) as [|c name] eqn:E.
  - split; [reflexivity|]. split; [discriminate|]. intros v H. congruence.
  - split; [discriminate|]. split.
    + intros v H. apply findVoice_Some in H as [Hin Hm].
      split; [exact Hin|]. split; [discriminate|exact Hm].
    + intros v _ Hin Hm. eapply findVoice_found; eassumption.
Qed.

Lemma utterance_voice_witness :
  uvoice (mkUtterance
            [{| voiceURI := js "urn:anna"; vname := js "Anna"; vlang := js "de-DE" |}]
            {| rq_field := js "timer"; rq_seconds := Num 10;
               rq_config := {| enabled := true; threshold := 10;
                               voice := js "Anna"; language := js "de-DE" |} |})
  <> None.
Proof.
  apply (proj2 (proj2 (utterance_voice _ _))
           {| voiceURI := js "urn:anna"; vname := js "Anna"; vlang := js "de-DE" |}).
  - vm_compute. congruence.
  - left. reflexivity.
  - right. reflexivity.
Defined.

Lemma startsWith_refl_app s t : startsWith (s ++ t) s = true.
Proof.
  induction s as [|c s IH]; [destruct t; reflexivity|].
  simpl. rewrite N.eqb_refl. exact IH.
Qed.

Lemma split_nonempty sep s : split sep s <> [].
Proof.
  induction s as [|c s IH]; simpl; [discriminate|].
  destruct (c =? sep)%N; [discriminate|]. destruct (split sep s); discriminate.
Qed.

(** The first field of a split is a prefix of the string. *)
Lemma split_head_prefix sep s :
  exists w ws t, split sep s = w :: ws /\ s = w ++ t.
Proof.
  induction s as [|c s (w & ws & t & Hs & Ht)]; simpl.
  - exists [], [], []. auto.
  - destruct (c =? sep)%N.
    + exists [], (split sep s), (c :: s). auto.
    + rewrite Hs. exists (c :: w), ws, t. rewrite Ht at 1. auto.
Qed.

Lemma startsWith_langCode lang : startsWith lang (langCodeOf lang) = true.
Proof.
  unfold langCodeOf.
  destruct (split_head_prefix 45 lang) as (w & ws & t & Hs & Ht).
  rewrite Hs. rewrite Ht at 1. apply startsWith_refl_app.
Qed.

(** X11. The voice select of a field offers only voices whose language
    starts with the primary subtag of the field's language, and it offers
    every voice of the engine that has exactly the field's language. *)
Theorem voice_options_follow_language st k config :
  monitoredFields st !! k = Some config ->
  (forall v sel, In (v, sel) (voiceOptionsFor k st) ->
     In v (voices (speech st)) /\
     startsWith (vlang v) (langCodeOf (language config)) = true /\
     (sel = true <-> voice config = voiceURI v)) /\
  (forall v, available (speech st) = true -> In v (voices (speech st)) ->
     vlang v = language config ->
     exists sel, In (v, sel) (voiceOptionsFor k st)).
Proof.
  intros Hm. unfold voiceOptionsFor, voiceOptions, getAvailableVoices. rewrite Hm. split.
  - intros v sel Hin. apply in_map_iff in Hin as (v' & [= -> <-] & Hf).
    apply List.filter_In in Hf as [Hin Hs].
    destruct (available (speech st)); [|destruct Hin].
    repeat split; auto.
    + intros Hb. apply bool_decide_eq_true in Hb. congruence.
    + intros ->. apply bool_decide_eq_true. reflexivity.
  - intros v Ha Hin Hl. rewrite Ha. eexists. apply in_map_iff.
    exists v. split; [reflexivity|]. apply List.filter_In. split; [exact Hin|].
    rewrite Hl. apply startsWith_langCode.
Qed.

Lemma voice_options_follow_language_witness :
  exists sel, In (alex, sel) (voiceOptionsFor (js "timer") sampleVoiced).
Proof.
  apply (proj2 (voice_options_follow_language sampleVoiced (js "timer")
                  (sampleConfig 10) eq_refl) alex).
  - reflexivity.
  - right. right. left. reflexivity.
  - reflexivity.
Defined.

(** X12. A voice picked from the select of a field is the one spoken with:
    after the change handler has stored its identifier, every utterance for
    the field is bound to a voice of the engine that carries this
    identifier (as identifier or as name), unless the identifier is
    empty. *)
Theorem picked_voice_is_used st k config v sel seconds :
  monitoredFields st !! k = Some config ->
  In (v, sel) (voiceOptionsFor k st) ->
  voiceURI v <> [] ->
  let st' := onVoiceChange k (voiceURI v) st in
  exists config' v',
    monitoredFields st' !! k = Some config' /\
    language config' = language config /\
    uvoice (mkUtterance (voices (speech st'))
              {| rq_field := k; rq_seconds := seconds; rq_config := config' |}) = Some v' /\
    (voiceURI v' = voiceURI v \/ vname v' = voiceURI v).
Proof.
  intros Hm Hin Hne. cbv zeta.
  assert (Hv : In v (voices (speech st))).
  { unfold voiceOptionsFor, voiceOptions, getAvailableVoices in Hin. rewrite Hm in Hin.
    apply in_map_iff in Hin as (v0 & [= -> _] & Hf).
    apply List.filter_In in Hf as [Hf _].
    destruct (available (speech st)); [exact Hf|destruct Hf]. }
  unfold onVoiceChange, configOrDefault. rewrite Hm.
  eexists. simpl. rewrite lookup_insert_eq.
  destruct (findVoice (voices (speech st)) (voiceURI v)) as [v'|] eqn:F.
  - exists v'. split; [reflexivity|]. split; [reflexivity|].
    unfold mkUtterance. cbn [uvoice rq_config voice].
    destruct (voiceURI v) eqn:U; [congruence|]. rewrite <- U in *.
    split; [exact F|]. apply findVoice_Some in F as [_ F]. exact F.
  - exfalso. eapply findVoice_found; [exact Hv| |exact F]. auto.
Qed.

Lemma picked_voice_is_used_witness :
  exists config' v',
    monitoredFields (onVoiceChange (js "timer") (voiceURI kate) sampleVoiced)
      !! js "timer" = Some config' /\
    language config' = js "en-US" /\
    uvoice (mkUtterance (voices (speech (onVoiceChange (js "timer") (voiceURI kate) sampleVoiced)))
              {| rq_field := js "timer"; rq_seconds := Num 10; rq_config := config' |})
      = Some v' /\
    (voiceURI v' = voiceURI kate \/ vname v' = voiceURI kate).
Proof.
  apply (picked_voice_is_used sampleVoiced (js "timer") (sampleConfig 10) kate false (Num 10)).
  - reflexivity.
  - vm_compute. left. reflexivity.
  - vm_compute. congruence.
Defined.

(** ** Configuration handlers *)

Lemma saveConfiguration_in_step st : saved_in_step (saveConfiguration st).
Proof. unfold saved_in_step. rewrite saveConfiguration_item. reflexivity. Qed.

Lemma onAddField_refused k st :
  k = [] \/ ~ catalogHas (customFields st) k -> onAddField k st = (st, []).
Proof.
  unfold onAddField. intros [->|H]; [reflexivity|].
  destruct k; [reflexivity|]. rewrite decide_False by exact H. reflexivity.
Qed.

(** X13. Every handler that changes the monitored mapping writes it to the
    storage: after each of them the stored item is the mapping as it then
    is, but for an entry under the key "__proto__", which the plain object
    that is written does not hold.  The add button does so when it accepts
    the field, and otherwise changes nothing. *)
Theorem every_change_is_saved k value checked st :
  saved_in_step (onEnabledChange k checked st).1 /\
  saved_in_step (onThresholdChange k value st) /\
  saved_in_step (onLanguageChange k value st).1 /\
  saved_in_step (onVoiceChange k value st) /\
  saved_in_step (onRemoveField k st).1 /\
  (onAddField k st = (st, []) \/ saved_in_step (onAddField k st).1).
Proof.
  repeat split; try apply saveConfiguration_in_step.
  - rewrite onRemoveField_state. apply saveConfiguration_in_step.
  - destruct (decide (k = [])) as [->|Hne]; [left; reflexivity|].
    destruct (decide (catalogHas (customFields st) k)) as [E|E].
    + right. rewrite onAddField_state by assumption. apply saveConfiguration_in_step.
    + left. apply onAddField_refused. auto.
Qed.

Lemma loadSavedConfiguration_lookup st config k :
  savedConfig st = Some (Stored config) ->
  monitoredFields (loadSavedConfiguration st).1 !! k =
    match config !! k with
    | Some v => if decide (catalogHas (customFields st) k) then Some v
                else monitoredFields st !! k
    | None => monitoredFields st !! k
    end.
Proof.
  intros H. unfold loadSavedConfiguration. rewrite H.
  rewrite andThen_state, renderFieldsConfiguration_state. simpl.
  apply load_entries.
Qed.

Lemma loadSavedConfiguration_customFields st :
  customFields (loadSavedConfiguration st).1 = customFields st.
Proof.
  unfold loadSavedConfiguration. destruct (savedConfig st) as [[|config]|]; try reflexivity.
  rewrite andThen_state, renderFieldsConfiguration_state. reflexivity.
Qed.

(** X14. A key is monitored only if [customFields[key]] is truthy, that is,
    if the catalog defines the field or the key is a name every object
    inherits (such as "toString" or "constructor"): the add button, the
    remove buttons and the loading of the stored configuration keep it so,
    and so do the change handlers of a field that is monitored. *)
Theorem monitored_stay_in_catalog k value checked st :
  monitored_in_catalog st ->
  monitored_in_catalog (onAddField k st).1 /\
  monitored_in_catalog (onRemoveField k st).1 /\
  monitored_in_catalog (loadSavedConfiguration st).1 /\
  (is_Some (monitoredFields st !! k) ->
     monitored_in_catalog (onEnabledChange k checked st).1 /\
     monitored_in_catalog (onThresholdChange k value st) /\
     monitored_in_catalog (onLanguageChange k value st).1 /\
     monitored_in_catalog (onVoiceChange k value st)).
Proof.
  unfold monitored_in_catalog. intros Hinv.
  assert (Hins : forall c, catalogHas (customFields st) k ->
            forall j, is_Some (<[k := c]> (monitoredFields st) !! j) ->
                      catalogHas (customFields st) j).
  { intros c Hk j Hj.
    destruct (decide (k = j)) as [<-|Hne].
    - exact Hk.
    - rewrite lookup_insert_ne in Hj by exact Hne. apply Hinv, Hj. }
  split; [|split; [|split]].
  - destruct (decide (k = [])) as [->|Hne]; [exact Hinv|].
    destruct (decide (catalogHas (customFields st) k)) as [E|E].
    + rewrite onAddField_state by assumption.
      simpl. apply Hins. exact E.
    + rewrite onAddField_refused by auto. exact Hinv.
  - rewrite onRemoveField_state. simpl. intros j [c Hj].
    apply lookup_delete_Some in Hj as [_ Hj].
    apply Hinv. eauto.
  - rewrite loadSavedConfiguration_customFields.
    destruct (savedConfig st) as [[|config]|] eqn:E;
      try (unfold loadSavedConfiguration; rewrite E; exact Hinv).
    intros j Hj.
    rewrite (loadSavedConfiguration_lookup _ _ _ E) in Hj.
    destruct (config !! j); [destruct (decide (catalogHas (customFields st) j))|].
    + assumption.
    + apply Hinv, Hj.
    + apply Hinv, Hj.
  - intros Hk.
    assert (Hc : catalogHas (customFields st) k) by (apply Hinv, Hk).
    repeat split; simpl; apply Hins; exact Hc.
Qed.

Lemma sample_in_catalog : monitored_in_catalog sampleState.
Proof.
  intros k Hk. unfold sampleState in Hk. cbn [monitoredFields] in Hk.
  apply lookup_singleton_is_Some in Hk. subst k. left. vm_compute. eauto.
Defined.

Lemma monitored_stay_in_catalog_witness :
  monitored_in_catalog (onAddField (js "constructor") sampleState).1 /\
  monitored_in_catalog (onRemoveField (js "timer") sampleState).1.
Proof.
  split.
  - exact (proj1 (monitored_stay_in_catalog (js "constructor") [] true sampleState
                    sample_in_catalog)).
  - exact (proj1 (proj2 (monitored_stay_in_catalog (js "timer") [] true sampleState
                           sample_in_catalog))).
Defined.

(** ** The add-field dropdown *)

Lemma populateAddFieldDropdown_eq st :
  populateAddFieldDropdown st =
    (st, [PopulateAddFieldDropdown (dropdownOptions st)
            (bool_decide (dropdownOptions st = ∅))]).
Proof.
  unfold populateAddFieldDropdown, dropdownOptions, emit. do 3 f_equal.
  apply bool_decide_ext. rewrite fmap_empty_iff. reflexivity.
Qed.

Lemma dropdownOptions_lookup st k :
  dropdownOptions st !! k =
    match customFields st !! k with
    | Some f =>
        if decide (isTextField f /\ monitoredFields st !! k = None)
        then Some (label f) else None
    | None => None
    end.
Proof.
  unfold dropdownOptions. rewrite lookup_fmap.
  destruct (customFields st !! k) as [f|] eqn:E.
  - destruct (decide (isTextField f /\ monitoredFields st !! k = None)) as [H|H].
    + erewrite map_lookup_filter_Some_2; [reflexivity|exact E|exact H].
    + rewrite map_lookup_filter_None_2; [reflexivity|].
      right. intros f' Hf'. rewrite E in Hf'. injection Hf' as <-. exact H.
  - rewrite map_lookup_filter_None_2; [reflexivity|]. left. exact E.
Qed.

(** What [renderFieldsConfiguration] does, by the fields there are. *)
Lemma renderFieldsConfiguration_actions st :
  (renderFieldsConfiguration st).2 = [SetFieldsContainer NoTextCustomFieldsFound] \/
  (renderFieldsConfiguration st).2 = [SetFieldsContainer NoFieldsConfigured] \/
  exists keys,
    (renderFieldsConfiguration st).2 =
      [SetFieldsContainer (FieldRows keys); PopulateVoiceOptions;
       PopulateAddFieldDropdown (dropdownOptions st)
         (bool_decide (dropdownOptions st = ∅))].
Proof.
  unfold renderFieldsConfiguration.
  case_decide; [left; reflexivity|]. case_decide; [right; left; reflexivity|].
  right. right. eexists. rewrite !andThen_actions, !andThen_state.
  unfold emit. cbn [fst snd]. rewrite populateAddFieldDropdown_eq. reflexivity.
Qed.





(** X16. The add button takes a key exactly when it is not empty and
    [customFields[key]] is truthy: when the catalog defines the field, and
    also when the key is a name every object inherits, such as
    "constructor", which the catalog need not define.  A key it takes is
    monitored from then on with the default configuration, switched on, and
    the dropdown, populated again at the end, does not offer it. *)
Theorem adding_a_field k st :
  let out := onAddField k st in
  (k = [] \/ ~ catalogHas (customFields st) k -> out = (st, [])) /\
  (k <> [] -> catalogHas (customFields st) k ->
     monitoredFields out.1 !! k = Some (defaultConfig true) /\
     In (PopulateAddFieldDropdown (dropdownOptions out.1)
           (bool_decide (dropdownOptions out.1 = ∅))) out.2 /\
     dropdownOptions out.1 !! k = None /\
     (forall k', k' <> k -> monitoredFields out.1 !! k' = monitoredFields st !! k')).
Proof.
  cbv zeta. split; [apply onAddField_refused|].
  intros Hne Hcat. rewrite onAddField_state by assumption.
  split; [simpl; apply lookup_insert_eq|]. split; [|split].
  - unfold onAddField. destruct k as [|c k]; [congruence|].
    rewrite decide_True by exact Hcat.
    rewrite !andThen_actions, !andThen_state, renderFieldsConfiguration_state.
    apply in_or_app. right. simpl fst. rewrite populateAddFieldDropdown_eq. simpl. auto.
  - rewrite dropdownOptions_lookup. simpl. destruct (customFields st !! k); [|reflexivity].
    rewrite decide_False; [reflexivity|]. intros [_ H]. rewrite lookup_insert_eq in H.
    discriminate H.
  - intros k' Hk'. simpl. apply lookup_insert_ne. congruence.
Qed.

Lemma adding_a_field_witness :
  monitoredFields (onAddField (js "timer") (freshPage (customFields sampleState) None)).1
    !! js "timer" = Some (defaultConfig true) /\
  monitoredFields (onAddField (js "constructor") sampleState).1
    !! js "constructor" = Some (defaultConfig true) /\
  onAddField (js "ghost") sampleState = (sampleState, []).
Proof.
  assert (H1 : js "timer" <> []) by (vm_compute; congruence).
  assert (H2 : catalogHas (customFields (freshPage (customFields sampleState) None))
                 (js "timer")) by (left; vm_compute; eauto).
  assert (H3 : js "ghost" = [] \/ ~ catalogHas (customFields sampleState) (js "ghost")).
  { right. apply (bool_decide_unpack _). vm_compute. exact I. }
  assert (H4 : js "constructor" <> []) by (vm_compute; congruence).
  assert (H5 : catalogHas (customFields sampleState) (js "constructor")).
  { apply (bool_decide_unpack _). vm_compute. exact I. }
  split; [|split].
  - exact (proj1 (proj2 (adding_a_field (js "timer")
                           (freshPage (customFields sampleState) None)) H1 H2)).
  - exact (proj1 (proj2 (adding_a_field (js "constructor") sampleState) H4 H5)).
  - exact (proj1 (adding_a_field (js "ghost") sampleState) H3).
Defined.

(** ** Loading the stored configuration *)

Lemma loadSavedConfiguration_state st config :
  savedConfig st = Some (Stored config) ->
  (loadSavedConfiguration st).1 =
    set_monitoredFields (monitoredFields (loadSavedConfiguration st).1) st.
Proof.
  intros H. unfold loadSavedConfiguration. rewrite H.
  rewrite andThen_state, renderFieldsConfiguration_state. reflexivity.
Qed.

(** X17. Loading the stored configuration merges it into what is monitored:
    nothing happens without an item or with one that is not JSON; no
    monitored field is ever dropped; a stored entry replaces the entry of
    its key exactly when [customFields[key]] is truthy, that is, when the
    catalog defines the field or the key is a name every object inherits;
    and loading a second time changes nothing more. *)
Theorem loading_merges st :
  (savedConfig st = None \/ savedConfig st = Some Malformed ->
     loadSavedConfiguration st = (st, [])) /\
  (forall k, is_Some (monitoredFields st !! k) ->
     is_Some (monitoredFields (loadSavedConfiguration st).1 !! k)) /\
  (forall config k c, savedConfig st = Some (Stored config) -> config !! k = Some c ->
     monitoredFields (loadSavedConfiguration st).1 !! k =
       if decide (catalogHas (customFields st) k) then Some c
       else monitoredFields st !! k) /\
  (loadSavedConfiguration (loadSavedConfiguration st).1).1 = (loadSavedConfiguration st).1.
Proof.
  split; [|split; [|split]].
  - unfold loadSavedConfiguration. intros [-> | ->]; reflexivity.
  - intros k Hk. destruct (savedConfig st) as [[|config]|] eqn:E;
      try (unfold loadSavedConfiguration; rewrite E; exact Hk).
    rewrite (loadSavedConfiguration_lookup _ _ _ E).
    destruct (config !! k); [destruct (decide _)|]; eauto.
  - intros config k c E Hk. rewrite (loadSavedConfiguration_lookup _ _ _ E), Hk.
    reflexivity.
  - destruct (savedConfig st) as [[|config]|] eqn:E;
      try (unfold loadSavedConfiguration; rewrite !E; simpl; rewrite E; reflexivity).
    assert (E1 : savedConfig (loadSavedConfiguration st).1 = Some (Stored config)).
    { rewrite (loadSavedConfiguration_state _ _ E). exact E. }
    rewrite (loadSavedConfiguration_state (loadSavedConfiguration st).1 config E1).
    assert (M : monitoredFields (loadSavedConfiguration (loadSavedConfiguration st).1).1
                = monitoredFields (loadSavedConfiguration st).1).
    { apply map_eq. intros k.
      rewrite (loadSavedConfiguration_lookup _ _ _ E1), loadSavedConfiguration_customFields.
      rewrite !(loadSavedConfiguration_lookup _ _ _ E).
      destruct (config !! k); [|reflexivity].
      destruct (decide (catalogHas (customFields st) k)); reflexivity. }
    rewrite M. destruct (loadSavedConfiguration st).1; reflexivity.
Qed.

Lemma loading_merges_witness :
  loadSavedConfiguration (set_savedConfig (Some Malformed) sampleState)
    = (set_savedConfig (Some Malformed) sampleState, []).
Proof.
  apply (proj1 (loading_merges (set_savedConfig (Some Malformed) sampleState))).
  right. reflexivity.
Defined.

(** ** The threshold input *)

Lemma parseInt10_minus_digits w :
  all_digits w -> w <> [] -> parseInt10 (45%N :: w) = Num (- dec_value w).
Proof.
  intros Hall Hne. unfold parseInt10. cbn [trimStart]. change (is_ws 45) with false.
  cbv iota. rewrite N.eqb_refl, (read_digits_all _ Hall).
  destruct w as [|c w]; [congruence|]. simpl length. unfold dec_value. f_equal; lia.
Qed.

Lemma N_to_string_digits n :
  exists w, N_to_string n = w /\ all_digits w /\ w <> [] /\ dec_value w = Z.of_N n.
Proof.
  unfold N_to_string.
  destruct (dec_digits_spec (S (N.to_nat (N.log2 n))) n [] ltac:(lia))
    as (w & Hw & Hall & Hne & Hval).
  exists w. rewrite Hw, app_nil_r. auto.
Qed.

(** Reading back the text of a number gives the number. *)
Lemma parseInt10_num_to_string z : parseInt10 (num_to_string (Num z)) = Num z.
Proof.
  unfold num_to_string. destruct (Z.ltb_spec z 0).
  - destruct (N_to_string_digits (Z.abs_N z)) as (w & -> & Hall & Hne & Hval).
    rewrite parseInt10_minus_digits by assumption. rewrite Hval. f_equal. lia.
  - rewrite parseInt10_N_to_string. f_equal. lia.
Qed.

(** X18. The threshold a row shows reads back to itself: putting the text
    of a field's threshold into its input leaves the whole mapping as it
    is, unless the threshold is 0 (which the handler turns into 10). *)
Theorem shown_threshold_reads_back k st config :
  monitoredFields st !! k = Some config ->
  threshold config <> 0 ->
  Z.abs (threshold config) < 2 ^ 53 ->
  monitoredFields (onThresholdChange k (num_to_string (Num (threshold config))) st)
    = monitoredFields st.
Proof.
  intros Hm Hnz _. unfold onThresholdChange, configOrDefault. rewrite Hm.
  rewrite saved_monitoredFields. cbn [monitoredFields set_monitoredFields].
  rewrite parseInt10_num_to_string. unfold num_or.
  destruct (Z.eqb_spec (threshold config) 0); [contradiction|].
  apply insert_id. rewrite Hm. destruct config; reflexivity.
Qed.

Lemma shown_threshold_reads_back_witness :
  monitoredFields (onThresholdChange (js "timer") (js "10") sampleState)
    = monitoredFields sampleState.
Proof.
  apply (shown_threshold_reads_back (js "timer") sampleState (sampleConfig 10)).
  - reflexivity.
  - vm_compute. congruence.
  - vm_compute. reflexivity.
Defined.

(** X19. The threshold input takes a negative number as it is, and a field
    with a negative threshold is mute: whatever value arrives for it, the
    engine never calls [speakValue]. *)
Theorem negative_threshold_mutes k st :
  (forall n : N, (0 < n < 2 ^ 53)%N ->
     threshold <$> monitoredFields (onThresholdChange k (45%N :: N_to_string n) st) !! k
       = Some (- Z.of_N n)) /\
  (forall eventId config v,
     monitoredFields st !! k = Some config -> threshold config < 0 ->
     speakCalls (checkField eventId st (k, v)).2 = []).
Proof.
  split.
  - intros n Hn. unfold onThresholdChange. rewrite saved_monitoredFields. simpl.
    rewrite lookup_insert_eq. simpl.
    destruct (N_to_string_digits n) as (w & -> & Hall & Hne & Hval).
    rewrite parseInt10_minus_digits by assumption. unfold num_or.
    destruct (Z.eqb_spec (- dec_value w) 0); [lia|]. rewrite Hval. reflexivity.
  - intros eventId config v Hm Hneg.
    destruct (enabled config) eqn:He.
    2: { rewrite checkField_settled; [reflexivity|]. unfold settled. rewrite Hm. auto. }
    destruct (decide (previousValues st !! uniqueKey eventId k = Some v)) as [Hc|Hc].
    { rewrite checkField_settled; [reflexivity|]. unfold settled. rewrite Hm. auto. }
    destruct (speakCalls (checkField eventId st (k, v)).2) as [|rq l] eqn:E; [reflexivity|].
    exfalso.
    assert (Hcalls : speakCalls (checkField eventId st (k, v)).2 <> []) by congruence.
    apply (checkField_calls_iff _ _ _ _ _ Hm He Hc) in Hcalls as (s & Hp & Hle).
    destruct (parse_result_nonneg _ _ Hp) as (s' & [= <-] & Hs). lia.
Qed.

Lemma negative_threshold_mutes_witness :
  let st := onThresholdChange (js "timer") (js "-5") sampleState in
  threshold <$> monitoredFields st !! js "timer" = Some (-5) /\
  speakCalls (checkField (js "ev1") st (js "timer", JStr (js "00:00"))).2 = [].
Proof.
  cbv zeta. split.
  - exact (proj1 (negative_threshold_mutes (js "timer") sampleState) 5%N
             ltac:(vm_compute; split; reflexivity)).
  - apply (proj2 (negative_threshold_mutes (js "timer")
                    (onThresholdChange (js "timer") (js "-5") sampleState))
             (js "ev1") {| enabled := true; threshold := -5; voice := [];
                            language := js "en-US" |}).
    + vm_compute. reflexivity.
    + vm_compute. reflexivity.
Defined.

(** ** From a message to an utterance *)








(** ** The stage prefix *)

Lemma split_no_sep sep s : Forall (fun w => ~ In sep w) (split sep s).
Proof.
  induction s as [|c s IH]; simpl.
  - constructor; [intros []|constructor].
  - destruct (N.eqb_spec c sep) as [->|Hne].
    + constructor; [intros []|exact IH].
    + destruct (split sep s) as [|w ws]; [repeat constructor; intros [H|[]]; congruence|].
      inversion IH as [|? ? Hw Hws]; subst. constructor; [|exact Hws].
      intros [H|H]; [congruence|contradiction].
Qed.

Lemma split_app_sep sep a b :
  ~ In sep a -> split sep (a ++ sep :: b) = a :: split sep b.
Proof.
  induction a as [|c a IH]; intros Hn; simpl.
  - rewrite N.eqb_refl. reflexivity.
  - destruct (N.eqb_spec c sep) as [->|Hne]; [destruct Hn; left; reflexivity|].
    rewrite IH; [reflexivity|]. intros H. apply Hn. right. exact H.
Qed.

Lemma split_whole sep a : ~ In sep a -> split sep a = [a].
Proof.
  induction a as [|c a IH]; intros Hn; simpl; [reflexivity|].
  destruct (N.eqb_spec c sep) as [->|Hne]; [destruct Hn; left; reflexivity|].
  rewrite IH; [reflexivity|]. intros H. apply Hn. right. exact H.
Qed.

(** X22. [getStageHash] gives the empty string for an address outside
    getontime.no, and otherwise the first segment of the path with a slash
    before it (the empty string when there is none): its result is empty
    or a slash followed by a non-empty segment without a slash. *)
Theorem stage_hash_is_first_segment :
  (forall href, includes href (js "getontime.no") = false -> getStageHash href = []) /\
  (forall href,
     getStageHash href = [] \/
     exists seg, seg <> [] /\ ~ In 47%N seg /\ getStageHash href = 47%N :: seg) /\
  (forall proto host seg rest,
     ~ In 47%N proto -> ~ In 47%N host -> ~ In 47%N seg ->
     rest = [] \/ (exists r, rest = 47%N :: r) ->
     includes (proto ++ js "//" ++ host ++ js "/" ++ seg ++ rest) (js "getontime.no") = true ->
     getStageHash (proto ++ js "//" ++ host ++ js "/" ++ seg ++ rest) =
       match seg with
       | [] => []
       | _ :: _ => 47%N :: seg
       end).
Proof.
  split; [|split].
  - intros href H. unfold getStageHash. rewrite H. reflexivity.
  - intros href. unfold getStageHash.
    destruct (includes href (js "getontime.no")); cbn [negb]; [|auto].
    destruct (nth_error (split 47 href) 3) as [[|c seg]|] eqn:E; [auto| |auto].
    right. exists (c :: seg). split; [discriminate|]. split; [|reflexivity].
    apply nth_error_In in E.
    pose proof (split_no_sep 47 href) as Hall.
    rewrite List.Forall_forall in Hall. apply Hall, E.
  - intros proto host seg rest Hp Hh Hs Hrest Hinc. unfold getStageHash.
    rewrite Hinc. simpl negb. cbv iota.
    change (js "//" ++ host ++ js "/" ++ seg ++ rest)
      with (47%N :: [] ++ 47%N :: host ++ 47%N :: seg ++ rest).
    rewrite split_app_sep by exact Hp.
    rewrite split_app_sep by (intros []).
    rewrite split_app_sep by exact Hh.
    destruct Hrest as [->|(r & ->)].
    + rewrite app_nil_r, split_whole by exact Hs. simpl. destruct seg; reflexivity.
    + rewrite split_app_sep by exact Hs. simpl. destruct seg; reflexivity.
Qed.

Lemma stage_hash_is_first_segment_witness :
  getStageHash (js "https://cloud.getontime.no/abc123/external/tts") = js "/abc123" /\
  getStageHash (js "http://localhost:4001/external/tts") = [].
Proof.
  split.
  - apply (proj2 (proj2 stage_hash_is_first_segment)
             (js "https:") (js "cloud.getontime.no") (js "abc123") (js "/external/tts")).
    + vm_compute. intuition discriminate.
    + vm_compute. intuition discriminate.
    + vm_compute. intuition discriminate.
    + right. eexists. reflexivity.
    + vm_compute. reflexivity.
  - apply (proj1 stage_hash_is_first_segment). vm_compute. reflexivity.
Defined.
